(** * A fixed-capacity ring buffer and its random-access iterator

  Shallow embedding of [src/ringbuf/ringbuf.hpp] and
  [src/ringbuf/iterator.hpp].

  - [size_t] and [ssize_t] values are integers of [Z]; unsigned arithmetic
    wraps modulo [2^64] ([to_size]), signed arithmetic that leaves the
    representable range is undefined in C++ and yields [None].
  - Every operation of the source lives in the option monad: [None] stands
    for undefined behaviour (an array access out of bounds, a copy that
    runs past its destination, a division by zero, a signed overflow).
  - [std::expected<A, Error>] is the type [expected A].
  - The template parameters [T] and [Capacity] are section variables. *)

From Stdlib Require Import ZArith Lia.
From stdpp Require Import base tactics option list.

#[local] Unset Default Proof Using.
#[local] Open Scope Z_scope.

(** ** Machine integers *)

Module Int.

Definition SIZE_MOD : Z := 2 ^ 64.
Definition SSIZE_MAX : Z := 2 ^ 63 - 1.
Definition SSIZE_MIN : Z := - 2 ^ 63.

(** Reduction of an integer to [size_t]: the result of every unsigned
    operation, and of [static_cast<size_t>]. *)
Definition to_size (z : Z) : Z := z mod SIZE_MOD.

(** [static_cast<ssize_t>]: the two's complement reading. *)
Definition to_ssize (z : Z) : Z :=
  let u := z mod SIZE_MOD in
  if u <? 2 ^ 63 then u else u - SIZE_MOD.

Definition in_ssize (z : Z) : bool := (SSIZE_MIN <=? z) && (z <=? SSIZE_MAX).

(** Unsigned [+], [-] and [%]. *)
Definition uadd (a b : Z) : Z := to_size (a + b).
Definition usub (a b : Z) : Z := to_size (a - b).
Definition umod (a b : Z) : option Z :=
  if b =? 0 then None else Some (a mod b).

(** Signed [+], [-], [*]: undefined on overflow. *)
Definition checked (z : Z) : option Z := if in_ssize z then Some z else None.
Definition sadd (a b : Z) : option Z := checked (a + b).
Definition ssub (a b : Z) : option Z := checked (a - b).
Definition smul (a b : Z) : option Z := checked (a * b).

(** [std::div]: quotient truncated towards zero, remainder with the sign
    of the dividend. *)
Definition sdiv (a b : Z) : option (Z * Z) :=
  if b =? 0 then None
  else if in_ssize (Z.quot a b) then Some (Z.quot a b, Z.rem a b)
  else None.

End Int.
Import Int.

(** ** Errors and results *)

Inductive Error : Type := Full | Empty.

Inductive expected (A : Type) : Type :=
| Value (a : A)
| Unexpected (e : Error).
Arguments Value {A} a.
Arguments Unexpected {A} e.

Definition has_value {A} (r : expected A) : bool :=
  match r with Value _ => true | Unexpected _ => false end.

(** ** Spans and arrays *)

Section Span.
Context {T : Type}.

(** [span.size()] / [array.size()]. *)
Definition span_size (s : list T) : Z := Z.of_nat (length s).

(** [a[i]] as an rvalue. *)
Definition load (a : list T) (i : Z) : option T :=
  if (0 <=? i) && (i <? span_size a) then a !! Z.to_nat i else None.

(** [a[i] = v]. *)
Definition store (a : list T) (i : Z) (v : T) : option (list T) :=
  if (0 <=? i) && (i <? span_size a) then Some (<[Z.to_nat i := v]> a)
  else None.

(** [s.first(n)] and [s.last(n)]: [n] may not exceed the extent. *)
Definition span_first (n : Z) (s : list T) : option (list T) :=
  if (0 <=? n) && (n <=? span_size s) then Some (take (Z.to_nat n) s)
  else None.
Definition span_last (n : Z) (s : list T) : option (list T) :=
  if (0 <=? n) && (n <=? span_size s)
  then Some (drop (Z.to_nat (span_size s - n)) s)
  else None.

(** The range [[first, first + n)] of an array, given by two iterators
    obtained with [std::next]. *)
Definition range (a : list T) (first n : Z) : option (list T) :=
  if (0 <=? first) && (0 <=? n) && (first + n <=? span_size a)
  then Some (take (Z.to_nat n) (drop (Z.to_nat first) a))
  else None.

(** [std::copy(src.begin(), src.end(), std::next(dst.begin(), pos))]: the
    elements of [src] overwrite [dst] from index [pos] on; [dst] is the whole
    object the output iterator points into, and the copy may not run past
    it. *)
Definition copy (src dst : list T) (pos : Z) : option (list T) :=
  if (0 <=? pos) && (pos + span_size src <=? span_size dst)
  then Some (take (Z.to_nat pos) dst ++ src
               ++ drop (Z.to_nat (pos + span_size src)) dst)
  else None.

End Span.

(** ** The ring buffer (ringbuf.hpp) *)

Record RingBuffer (T : Type) : Type := mkRingBuffer {
  _buffer : list T;
  _write_ptr : Z;
  _read_ptr : Z;
  _is_full : bool
}.
Arguments mkRingBuffer {T}.
Arguments _buffer {T}.
Arguments _write_ptr {T}.
Arguments _read_ptr {T}.
Arguments _is_full {T}.

Section RingBuffer.
Context {T : Type}.
(** [T{}], the value every slot of [_buffer{}] starts with. *)
Variable T0 : T.
Variable Capacity : Z.

Abbreviation RB := (RingBuffer T).

(** [RingBuffer<T, Capacity>{}] *)
Definition new : RB :=
  mkRingBuffer (replicate (Z.to_nat Capacity) T0) 0 0 false.

Definition empty (rb : RB) : bool :=
  (_write_ptr rb =? _read_ptr rb) && negb (_is_full rb).

Definition full (rb : RB) : bool := _is_full rb.

Definition size (rb : RB) : Z :=
  if _is_full rb then Capacity
  else if _read_ptr rb <=? _write_ptr rb
       then usub (_write_ptr rb) (_read_ptr rb)
       else uadd (_write_ptr rb) (usub Capacity (_read_ptr rb)).

Definition free (rb : RB) : Z :=
  if _is_full rb then 0
  else if _read_ptr rb <=? _write_ptr rb
       then uadd (usub Capacity (_write_ptr rb)) (_read_ptr rb)
       else usub (_read_ptr rb) (_write_ptr rb).

Definition capacity (rb : RB) : Z := Capacity.

(** The tail shared by the three insertion operations:
    [if (_write_ptr == _read_ptr) _is_full = true;] *)
Definition mark_full (wp rp : Z) (was_full : bool) : bool :=
  if wp =? rp then true else was_full.

(** The body of [push] after its guard, which is all of
    [push_unchecked]. *)
Definition push_unchecked (value : T) (rb : RB) : option RB :=
  buf ← store (_buffer rb) (_write_ptr rb) value;
  wp ← umod (uadd (_write_ptr rb) 1) Capacity;
  Some (mkRingBuffer buf wp (_read_ptr rb)
          (mark_full wp (_read_ptr rb) (_is_full rb))).

Definition push (value : T) (rb : RB) : option (expected unit * RB) :=
  if _is_full rb then Some (Unexpected Full, rb)
  else
    buf ← store (_buffer rb) (_write_ptr rb) value;
    wp ← umod (uadd (_write_ptr rb) 1) Capacity;
    Some (Value (), mkRingBuffer buf wp (_read_ptr rb)
                      (mark_full wp (_read_ptr rb) (_is_full rb))).

Definition push_buffer (buffer : list T) (rb : RB)
  : option (expected unit * RB) :=
  if free rb <? span_size buffer then
    if _is_full rb then Some (Unexpected Full, rb)
    else Some (Unexpected Full, rb)
  else
    let space_until_wrap := usub Capacity (_write_ptr rb) in
    buf ← (if space_until_wrap <? span_size buffer then
             chunk1 ← span_first space_until_wrap buffer;
             chunk2 ← span_last (usub (span_size buffer) space_until_wrap)
                                buffer;
             buf1 ← copy chunk1 (_buffer rb) (_write_ptr rb);
             copy chunk2 buf1 0
           else copy buffer (_buffer rb) (_write_ptr rb));
    wp ← umod (uadd (_write_ptr rb) (span_size buffer)) Capacity;
    Some (Value (), mkRingBuffer buf wp (_read_ptr rb)
                      (mark_full wp (_read_ptr rb) (_is_full rb))).

Definition pop_unchecked (rb : RB) : option (T * RB) :=
  value ← load (_buffer rb) (_read_ptr rb);
  rp ← umod (uadd (_read_ptr rb) 1) Capacity;
  Some (value, mkRingBuffer (_buffer rb) (_write_ptr rb) rp false).

Definition pop (rb : RB) : option (expected T * RB) :=
  if empty rb then Some (Unexpected Empty, rb)
  else
    value ← load (_buffer rb) (_read_ptr rb);
    rp ← umod (uadd (_read_ptr rb) 1) Capacity;
    Some (Value value, mkRingBuffer (_buffer rb) (_write_ptr rb) rp false).

(** [pop_buffer(std::span<T> buffer)].  The span is a pointer and an
    extent: [out] is the caller's object from the span's first element on,
    and [n] is [buffer.size()], with [n <= length out].  The span's
    iterators are pointers into that object, so [std::copy] writes into
    [out]; it is undefined only when it runs past [out] itself.  The
    caller's object after the call is returned with the result. *)
Definition pop_buffer (out : list T) (n : Z) (rb : RB)
  : option (expected unit * RB * list T) :=
  if size rb <? n then
    if empty rb then Some (Unexpected Empty, rb, out)
    else Some (Unexpected Empty, rb, out)
  else
    let items_until_wrap := usub Capacity (_read_ptr rb) in
    out' ← (if items_until_wrap <? n then
              chunk1 ← span_last items_until_wrap (_buffer rb);
              chunk2 ← span_first (usub n items_until_wrap) (_buffer rb);
              out1 ← copy chunk1 out 0;
              copy chunk2 out1 items_until_wrap
            else
              chunk ← range (_buffer rb) (_read_ptr rb) items_until_wrap;
              copy chunk out 0);
    rp ← umod (uadd (_read_ptr rb) n) Capacity;
    Some (Value (), mkRingBuffer (_buffer rb) (_write_ptr rb) rp false, out').

Definition clear (rb : RB) : RB :=
  mkRingBuffer (_buffer rb) 0 0 false.

End RingBuffer.

(** ** The iterator and its sentinel (iterator.hpp) *)

(** [data] is the span over the buffer's storage.  The span aliases the
    storage; no operation below writes through it, so the model keeps the
    elements it views. [ptr] is a [size_t], [cycle] an [ssize_t]. *)
Record Iterator (T : Type) : Type := mkIterator {
  data : list T;
  ptr : Z;
  cycle : Z
}.
Arguments mkIterator {T}.
Arguments data {T}.
Arguments ptr {T}.
Arguments cycle {T}.

Record Sentinel : Type := mkSentinel {
  sentinel_ptr : Z;
  sentinel_cycle : Z
}.

Section Iterator.
Context {T : Type}.

Abbreviation It := (Iterator T).

(** The constructors take the cycle as a [size_t] and cast it. *)
Definition Iterator_ctor (d : list T) (p c : Z) : It :=
  mkIterator d p (to_ssize c).

Definition Sentinel_ctor (p c : Z) : Sentinel :=
  mkSentinel p (to_ssize c).

Definition begin (rb : RingBuffer T) : It :=
  Iterator_ctor (_buffer rb) (_read_ptr rb) 0.

Definition end_ (rb : RingBuffer T) : Sentinel :=
  if (_write_ptr rb <? _read_ptr rb) || full rb
  then Sentinel_ctor (_write_ptr rb) 1
  else Sentinel_ctor (_write_ptr rb) 0.

Definition eq_sentinel (it : It) (other : Sentinel) : bool :=
  (cycle it =? sentinel_cycle other) && (ptr it =? sentinel_ptr other).

Definition eq_iterator (it other : It) : bool :=
  (cycle it =? cycle other) && (ptr it =? ptr other).

(** [operator<=>] *)
Definition compare (it other : It) : comparison :=
  if cycle it =? cycle other then ptr it ?= ptr other
  else cycle it ?= cycle other.

(** [operator*] *)
Definition deref (it : It) : option T := load (data it) (ptr it).

(** [operator++], prefix; the postfix form changes [*this] the same way. *)
Definition pre_inc (it : It) : option It :=
  if usub (span_size (data it)) 1 <=? ptr it then
    c ← sadd (cycle it) 1;
    Some (mkIterator (data it) 0 c)
  else Some (mkIterator (data it) (uadd (ptr it) 1) (cycle it)).

(** [operator--], prefix. *)
Definition pre_dec (it : It) : option It :=
  if ptr it =? 0 then
    c ← ssub (cycle it) 1;
    Some (mkIterator (data it) (usub (span_size (data it)) 1) c)
  else Some (mkIterator (data it) (usub (ptr it) 1) (cycle it)).

(** [Iterator - Sentinel] *)
Definition sub_sentinel (it : It) (other : Sentinel) : option Z :=
  let this_ptr := to_ssize (ptr it) in
  let other_ptr := to_ssize (sentinel_ptr other) in
  let data_size := to_ssize (span_size (data it)) in
  this_off ← smul (cycle it) data_size;
  this_pos ← sadd this_ptr this_off;
  other_off ← smul (sentinel_cycle other) data_size;
  other_pos ← sadd other_ptr other_off;
  ssub this_pos other_pos.

(** [Iterator - Iterator] *)
Definition sub_iterator (it other : It) : option Z :=
  let this_ptr := to_ssize (ptr it) in
  let other_ptr := to_ssize (ptr other) in
  let this_size := to_ssize (span_size (data it)) in
  let other_size := to_ssize (span_size (data other)) in
  this_off ← smul (cycle it) this_size;
  this_pos ← sadd this_ptr this_off;
  other_off ← smul (cycle other) other_size;
  other_pos ← sadd other_ptr other_off;
  ssub this_pos other_pos.

(** [Sentinel - Iterator] *)
Definition sentinel_sub (s : Sentinel) (other : It) : option Z :=
  let data_size := to_ssize (span_size (data other)) in
  this_off ← smul (sentinel_cycle s) data_size;
  this_pos ← sadd (to_ssize (sentinel_ptr s)) this_off;
  other_off ← smul (cycle other) data_size;
  other_pos ← sadd (to_ssize (ptr other)) other_off;
  ssub this_pos other_pos.

(** The two wrap blocks that [operator+=], [operator-=], binary [operator+]
    and binary [operator-] all repeat after computing the raw index:
<<
    if (ptr >= data_size) { r = std::div(ptr, data_size);
                            cycle += r.quot; ptr = r.rem; }
    if (ptr < 0)          { r = std::div(ptr, data_size);
                            cycle += r.quot; ptr = data_size + r.rem; }
>>
    The result is the pair of the new index and the new cycle. *)
Definition wrap_upper (data_size : Z) (pc : Z * Z) : option (Z * Z) :=
  let '(p, c) := pc in
  if data_size <=? p then
    '(quot, rem) ← sdiv p data_size;
    c' ← sadd c quot;
    Some (rem, c')
  else Some (p, c).

Definition wrap_lower (data_size : Z) (pc : Z * Z) : option (Z * Z) :=
  let '(p, c) := pc in
  if p <? 0 then
    '(quot, rem) ← sdiv p data_size;
    c' ← sadd c quot;
    p' ← sadd data_size rem;
    Some (p', c')
  else Some (p, c).

Definition wrap (data_size : Z) (pc : Z * Z) : option (Z * Z) :=
  wrap_upper data_size pc ≫= wrap_lower data_size.

(** [operator+=] *)
Definition add_assign (other : Z) (it : It) : option It :=
  let old_ptr := to_ssize (ptr it) in
  let data_size := to_ssize (span_size (data it)) in
  new_ptr ← sadd old_ptr other;
  '(new_ptr, c) ← wrap data_size (new_ptr, cycle it);
  Some (mkIterator (data it) (to_size new_ptr) c).

(** [operator-=] *)
Definition sub_assign (other : Z) (it : It) : option It :=
  let old_ptr := to_ssize (ptr it) in
  let data_size := to_ssize (span_size (data it)) in
  new_ptr ← ssub old_ptr other;
  '(new_ptr, c) ← wrap data_size (new_ptr, cycle it);
  Some (mkIterator (data it) (to_size new_ptr) c).

(** [operator[]] *)
Definition index (it : It) (i : Z) : option T :=
  index_adj ← umod (uadd (ptr it) i) (span_size (data it));
  load (data it) index_adj.

(** [operator+(Iterator, difference_type)] *)
Definition add (lhs : It) (rhs : Z) : option It :=
  let lhs_ptr := to_ssize (ptr lhs) in
  let data_size := to_ssize (span_size (data lhs)) in
  p ← sadd lhs_ptr rhs;
  '(p, c) ← wrap data_size (p, cycle lhs);
  Some (Iterator_ctor (data lhs) (to_size p) (to_size c)).

(** [operator+(difference_type, Iterator)] *)
Definition add_l (lhs : Z) (rhs : It) : option It := add rhs lhs.

(** [operator-(Iterator, difference_type)] *)
Definition sub (lhs : It) (rhs : Z) : option It :=
  let lhs_ptr := to_ssize (ptr lhs) in
  let data_size := to_ssize (span_size (data lhs)) in
  p ← ssub lhs_ptr rhs;
  '(p, c) ← wrap data_size (p, cycle lhs);
  Some (Iterator_ctor (data lhs) (to_size p) (to_size c)).

(** The logical position [ptr + cycle * N] of the data model. *)
Definition position (it : It) : Z :=
  ptr it + cycle it * span_size (data it).

End Iterator.

(** * The vocabulary of the properties *)

(** ** Buffers *)

Section BufferStates.
Context {T : Type}.
Variable T0 : T.
Variable Capacity : Z.

Abbreviation RB := (RingBuffer T).
Abbreviation size := (size Capacity).

(** The invariant of the data model: both cursors index the storage, and
    the flag is only set where the cursors meet. *)
Definition cursors_ok (rb : RB) : Prop :=
  0 ≤ _write_ptr rb < Capacity ∧ 0 ≤ _read_ptr rb < Capacity ∧
  (_is_full rb = true → _write_ptr rb = _read_ptr rb).

(** With the extent of the storage, the invariant every operation needs. *)
Definition wf (rb : RB) : Prop :=
  span_size (_buffer rb) = Capacity ∧ cursors_ok rb.

(** The part of the invariant that survives a [push_unchecked] on a full
    buffer. *)
Definition in_range (rb : RB) : Prop :=
  span_size (_buffer rb) = Capacity ∧
  0 ≤ _write_ptr rb < Capacity ∧ 0 ≤ _read_ptr rb < Capacity.

(** *** The queue a buffer represents *)

(** The live elements, oldest first: [size rb] elements of the storage read
    circularly from [_read_ptr]. *)
Definition contents (rb : RB) : list T :=
  take (Z.to_nat (size rb))
       (drop (Z.to_nat (_read_ptr rb)) (_buffer rb)
          ++ take (Z.to_nat (_read_ptr rb)) (_buffer rb)).

(** The buffer [push(v)] leaves when there is room, and the one [pop()]
    leaves when there is an element. *)
Definition pushed (v : T) (rb : RB) : RB :=
  let wp := (_write_ptr rb + 1) mod Capacity in
  mkRingBuffer (<[Z.to_nat (_write_ptr rb) := v]> (_buffer rb)) wp
    (_read_ptr rb) (mark_full wp (_read_ptr rb) (_is_full rb)).

Definition popped (rb : RB) : RB :=
  mkRingBuffer (_buffer rb) (_write_ptr rb)
    ((_read_ptr rb + 1) mod Capacity) false.

(** The buffer [pop_buffer] leaves after a request for [n] elements. *)
Definition popped_n (n : Z) (rb : RB) : RB :=
  mkRingBuffer (_buffer rb) (_write_ptr rb)
    ((_read_ptr rb + n) mod Capacity) false.

(** *** Sequences of single-element operations *)

Inductive op : Type :=
| Push (v : T)
| Pop.

Inductive reply : Type :=
| PushReply (r : expected unit)
| PopReply (r : expected T).

Definition exec (o : op) (rb : RB) : option (reply * RB) :=
  match o with
  | Push v => '(r, rb') ← push Capacity v rb; Some (PushReply r, rb')
  | Pop => '(r, rb') ← pop Capacity rb; Some (PopReply r, rb')
  end.

Fixpoint run (ops : list op) (rb : RB) : option (list reply * RB) :=
  match ops with
  | [] => Some ([], rb)
  | o :: ops' =>
      '(r, rb1) ← exec o rb;
      '(rs, rb2) ← run ops' rb1;
      Some (r :: rs, rb2)
  end.

(** No push is issued while the buffer is full and no pop while it is
    empty.  A step without a defined result constrains nothing further, so
    the hypothesis does not presuppose that the run is defined. *)
Definition may_issue (o : op) (rb : RB) : bool :=
  match o with
  | Push _ => negb (full rb)
  | Pop => negb (empty rb)
  end.

Fixpoint within_bounds (ops : list op) (rb : RB) : bool :=
  match ops with
  | [] => true
  | o :: ops' =>
      may_issue o rb &&
      match exec o rb with
      | Some (_, rb1) => within_bounds ops' rb1
      | None => true
      end
  end.

Definition succeeded (r : reply) : bool :=
  match r with
  | PushReply r => has_value r
  | PopReply r => has_value r
  end.

Fixpoint pushed_values (ops : list op) : list T :=
  match ops with
  | [] => []
  | Push v :: ops' => v :: pushed_values ops'
  | Pop :: ops' => pushed_values ops'
  end.

Fixpoint pop_count (ops : list op) : nat :=
  match ops with
  | [] => 0
  | Push _ :: ops' => pop_count ops'
  | Pop :: ops' => S (pop_count ops')
  end.

Fixpoint popped_values (rs : list reply) : list T :=
  match rs with
  | [] => []
  | PopReply (Value x) :: rs' => x :: popped_values rs'
  | _ :: rs' => popped_values rs'
  end.

(** *** Reachable states *)

Inductive call : Type :=
| CallPush (v : T)
| CallPushUnchecked (v : T)
| CallPushBuffer (buffer : list T)
| CallPop
| CallPopUnchecked
| CallPopBuffer (out : list T) (n : Z)
| CallClear.

(** The buffer a call leaves behind, when the call is defined. *)
Definition after (c : call) (rb : RB) : option RB :=
  match c with
  | CallPush v => snd <$> push Capacity v rb
  | CallPushUnchecked v => push_unchecked Capacity v rb
  | CallPushBuffer buffer => snd <$> push_buffer Capacity buffer rb
  | CallPop => snd <$> pop Capacity rb
  | CallPopUnchecked => snd <$> pop_unchecked Capacity rb
  | CallPopBuffer out n => (λ r, snd (fst r)) <$> pop_buffer Capacity out n rb
  | CallClear => Some (clear rb)
  end.

Inductive reachable (allowed : call → RB → Prop) : RB → Prop :=
| reachable_new : reachable allowed (new T0 Capacity)
| reachable_call rb c rb' :
    reachable allowed rb → allowed c rb → after c rb = Some rb' →
    reachable allowed rb'.

(** Every public operation, in any state. *)
Definition any_call (c : call) (rb : RB) : Prop := True.

(** Every public operation, [push_unchecked] only while there is room. *)
Definition room_for_unchecked (c : call) (rb : RB) : Prop :=
  match c with
  | CallPushUnchecked _ => full rb = false
  | _ => True
  end.

(** The checked operations and [clear]. *)
Definition checked_call (c : call) (rb : RB) : Prop :=
  match c with
  | CallPushUnchecked _ | CallPopUnchecked => False
  | _ => True
  end.

End BufferStates.

(** ** Iterators *)

(** [n] applications of an operator that may be undefined. *)
Fixpoint times {A : Type} (n : nat) (f : A → option A) (a : A) : option A :=
  match n with
  | O => Some a
  | S n' => f a ≫= times n' f
  end.

(** An iterator over storage of [N] elements whose index is in bounds. *)
Definition in_bounds (N : Z) {T : Type} (it : Iterator T) : Prop :=
  span_size (data it) = N ∧ N ≤ SSIZE_MAX ∧ 0 ≤ ptr it < N.

(** ** Concrete buffers and iterators *)

Definition eight : list Z := [10; 11; 12; 13; 14; 15; 16; 17].

(** An iterator at the first slot of eight, cycle 0: logical position 0. *)
Definition at_start : Iterator Z := mkIterator eight 0 0.

(** Capacity 4 after [push(1); push(2)]. *)
Definition two_of_four : RingBuffer Z := mkRingBuffer [1; 2; 0; 0] 2 0 false.

(** Capacity 2 after [push(1); push(2)], and after a further
    [push_unchecked(3)]. *)
Definition full_of_two : RingBuffer Z := mkRingBuffer [1; 2] 0 0 true.
Definition overrun_of_two : RingBuffer Z := mkRingBuffer [3; 2] 1 0 true.

(** An empty buffer of capacity 4 with both cursors at 3. *)
Definition empty_at_three : RingBuffer Z := mkRingBuffer [5; 6; 7; 8] 3 3 false.

(** A full buffer of capacity 64 holding 0..63 from physical index 40 on. *)
Definition full_from_40 : RingBuffer Z :=
  mkRingBuffer (seqZ 24 40 ++ seqZ 0 24) 40 40 true.

(** Capacity 4 with two elements stored across the physical end: 10 in the
    last slot, 20 in the first. *)
Definition wrapped_of_four : RingBuffer Z :=
  mkRingBuffer [20; 0; 0; 10] 1 3 false.

(** An iterator at slot 3 of eight, cycle 0. *)
Definition at_three : Iterator Z := mkIterator eight 3 0.

(** * Properties *)

(** ** Machine arithmetic in range *)

(** Linear arithmetic with the bounds of the integer types unfolded. *)
Ltac int_lia := unfold SSIZE_MIN, SSIZE_MAX, SIZE_MOD in *; lia.

Lemma to_size_small z : 0 ≤ z < SIZE_MOD → to_size z = z.
Proof. intros Hz. unfold to_size. by apply Z.mod_small. Qed.

Lemma uadd_small a b : 0 ≤ a + b < SIZE_MOD → uadd a b = a + b.
Proof. apply to_size_small. Qed.

Lemma usub_small a b : 0 ≤ a - b < SIZE_MOD → usub a b = a - b.
Proof. apply to_size_small. Qed.

Lemma to_ssize_small z : 0 ≤ z ≤ SSIZE_MAX → to_ssize z = z.
Proof.
  intros Hz. unfold to_ssize, SSIZE_MAX, SIZE_MOD in *.
  rewrite Z.mod_small by lia.
  destruct (Z.ltb_spec z (2 ^ 63)); lia.
Qed.

Lemma to_ssize_to_size z : in_ssize z = true → to_ssize (to_size z) = z.
Proof.
  unfold in_ssize, to_ssize, to_size, SSIZE_MIN, SSIZE_MAX, SIZE_MOD.
  intros Hz. apply andb_prop in Hz as [Hlo Hhi].
  apply Z.leb_le in Hlo, Hhi. rewrite Z.mod_mod by lia.
  destruct (Z.neg_nonneg_cases z) as [Hneg|Hpos].
  - replace (z mod 2 ^ 64) with (z + 2 ^ 64).
    + destruct (Z.ltb_spec (z + 2 ^ 64) (2 ^ 63)); lia.
    + apply Z.mod_unique with (q := -1); lia.
  - rewrite Z.mod_small by lia.
    destruct (Z.ltb_spec z (2 ^ 63)); lia.
Qed.

Lemma checked_Some z : SSIZE_MIN ≤ z ≤ SSIZE_MAX → checked z = Some z.
Proof.
  intros Hz. unfold checked, in_ssize.
  destruct (Z.leb_spec SSIZE_MIN z), (Z.leb_spec z SSIZE_MAX); simpl;
    lia || done.
Qed.

Lemma umod_Some a b : b ≠ 0 → umod a b = Some (a mod b).
Proof. intros Hb. unfold umod. by destruct (Z.eqb_spec b 0). Qed.

(** One reduction step: an index that has run at most one lap over. *)
Lemma mod_lap a n : 0 ≤ a < 2 * n → a mod n = if a <? n then a else a - n.
Proof.
  intros Ha. destruct (Z.ltb_spec a n).
  - apply Z.mod_small; lia.
  - symmetry. apply Z.mod_unique with (q := 1); lia.
Qed.

(** ** The representation invariant of the buffer *)

Section RingBufferInvariant.
Context {T : Type}.
Variable T0 : T.
Variable Capacity : Z.
Hypothesis Capacity_pos : 0 < Capacity.
(** [Capacity] is a [size_t]. *)
Hypothesis Capacity_size_t : Capacity < SIZE_MOD.

Abbreviation RB := (RingBuffer T).
Abbreviation size := (@size T Capacity).
Abbreviation free := (@free T Capacity).
Abbreviation cursors_ok := (@cursors_ok T Capacity).
Abbreviation wf := (@wf T Capacity).
Abbreviation in_range := (@in_range T Capacity).
Abbreviation contents := (@contents T Capacity).
Abbreviation pushed := (@pushed T Capacity).
Abbreviation popped := (@popped T Capacity).
Abbreviation popped_n := (@popped_n T Capacity).
Abbreviation exec := (@exec T Capacity).
Abbreviation run := (@run T Capacity).
Abbreviation within_bounds := (@within_bounds T Capacity).
Abbreviation after := (@after T Capacity).
Abbreviation reachable := (@reachable T T0 Capacity).

Lemma size_in_range (rb : RB) :
  0 ≤ _write_ptr rb < Capacity → 0 ≤ _read_ptr rb < Capacity →
  size rb =
    if _is_full rb then Capacity
    else if _read_ptr rb <=? _write_ptr rb then _write_ptr rb - _read_ptr rb
         else _write_ptr rb + Capacity - _read_ptr rb.
Proof.
  intros Hw Hr. unfold size.
  destruct (_is_full rb); [done|].
  destruct (Z.leb_spec (_read_ptr rb) (_write_ptr rb)).
  - rewrite usub_small; lia.
  - rewrite (usub_small Capacity), uadd_small; lia.
Qed.

Lemma free_in_range (rb : RB) :
  0 ≤ _write_ptr rb < Capacity → 0 ≤ _read_ptr rb < Capacity →
  free rb =
    if _is_full rb then 0
    else if _read_ptr rb <=? _write_ptr rb
         then Capacity - _write_ptr rb + _read_ptr rb
         else _read_ptr rb - _write_ptr rb.
Proof.
  intros Hw Hr. unfold free.
  destruct (_is_full rb); [done|].
  destruct (Z.leb_spec (_read_ptr rb) (_write_ptr rb)).
  - rewrite (usub_small Capacity), uadd_small; lia.
  - rewrite usub_small; lia.
Qed.

Lemma size_bounds (rb : RB) :
  0 ≤ _write_ptr rb < Capacity → 0 ≤ _read_ptr rb < Capacity →
  0 ≤ size rb ≤ Capacity.
Proof.
  intros Hw Hr. rewrite size_in_range by done.
  destruct (_is_full rb); [lia|].
  destruct (Z.leb_spec (_read_ptr rb) (_write_ptr rb)); lia.
Qed.

(** ** The queue a buffer represents *)

Lemma lookup_circular (l : list T) (r : Z) (i : nat) :
  span_size l = Capacity → 0 ≤ r < Capacity → Z.of_nat i < Capacity →
  (drop (Z.to_nat r) l ++ take (Z.to_nat r) l) !! i
  = l !! Z.to_nat ((r + Z.of_nat i) mod Capacity).
Proof.
  unfold span_size. intros Hlen Hr Hi. rewrite mod_lap by lia.
  destruct (Z.ltb_spec (r + Z.of_nat i) Capacity).
  - rewrite lookup_app_l by (rewrite length_drop; lia).
    rewrite lookup_drop. f_equal. lia.
  - rewrite lookup_app_r by (rewrite length_drop; lia).
    rewrite length_drop, lookup_take_lt by lia. f_equal. lia.
Qed.

Lemma length_contents rb : wf rb → span_size (contents rb) = size rb.
Proof.
  intros (Hlen & Hw & Hr & _). pose proof (size_bounds rb Hw Hr).
  unfold span_size, contents in *.
  rewrite length_take, length_app, length_drop, length_take. lia.
Qed.

Lemma lookup_contents rb (i : nat) :
  wf rb → Z.of_nat i < size rb →
  contents rb !! i
  = _buffer rb !! Z.to_nat ((_read_ptr rb + Z.of_nat i) mod Capacity).
Proof.
  intros (Hlen & Hw & Hr & _) Hi. pose proof (size_bounds rb Hw Hr).
  unfold contents. rewrite lookup_take_lt by lia.
  apply lookup_circular; lia.
Qed.

Lemma lookup_contents_ge rb (i : nat) :
  wf rb → size rb ≤ Z.of_nat i → contents rb !! i = None.
Proof.
  intros Hwf Hi. apply lookup_ge_None_2.
  pose proof (length_contents rb Hwf) as Hlen. unfold span_size in Hlen. lia.
Qed.

Lemma wf_new : wf (new T0 Capacity).
Proof.
  unfold wf, cursors_ok, new, span_size; simpl.
  rewrite length_replicate. split_and!; (lia || done).
Qed.

Lemma contents_new : contents (new T0 Capacity) = [].
Proof. reflexivity. Qed.

(** *** [push] appends *)

Lemma push_unchecked_wf v rb :
  wf rb → push_unchecked Capacity v rb = Some (pushed v rb).
Proof.
  intros (Hlen & Hw & Hr & _).
  unfold push_unchecked, store, pushed.
  destruct (Z.leb_spec 0 (_write_ptr rb)); [simpl|lia].
  destruct (Z.ltb_spec (_write_ptr rb) (span_size (_buffer rb))); [simpl|lia].
  rewrite uadd_small, umod_Some by lia. done.
Qed.

Lemma push_wf v rb :
  wf rb → _is_full rb = false →
  push Capacity v rb = Some (Value (), pushed v rb).
Proof.
  intros Hwf Hfull. pose proof (push_unchecked_wf v rb Hwf) as Hpush.
  unfold push, push_unchecked in *. rewrite Hfull.
  destruct (store _ _ _); simpl in *; [|done].
  destruct (umod _ _); simpl in *; [|done]. congruence.
Qed.

Lemma wf_pushed v rb : wf rb → _is_full rb = false → wf (pushed v rb).
Proof.
  intros (Hlen & Hw & Hr & _) Hfull.
  pose proof (Z.mod_pos_bound (_write_ptr rb + 1) Capacity Capacity_pos).
  unfold wf, cursors_ok, pushed, mark_full, span_size in *; simpl.
  rewrite length_insert, Hfull. split_and!; try (lia || done).
  destruct (Z.eqb_spec ((_write_ptr rb + 1) mod Capacity) (_read_ptr rb));
    done.
Qed.

Lemma size_pushed v rb :
  wf rb → _is_full rb = false → size (pushed v rb) = size rb + 1.
Proof.
  intros (Hlen & Hw & Hr & _) Hfull.
  pose proof (Z.mod_pos_bound (_write_ptr rb + 1) Capacity Capacity_pos).
  rewrite !size_in_range by (simpl; lia). simpl.
  unfold mark_full. rewrite Hfull, mod_lap by lia.
  repeat case_match; lia.
Qed.

Lemma write_slot rb :
  wf rb → _is_full rb = false →
  (_read_ptr rb + size rb) mod Capacity = _write_ptr rb.
Proof.
  intros (Hlen & Hw & Hr & _) Hfull.
  rewrite size_in_range, Hfull by done.
  destruct (Z.leb_spec (_read_ptr rb) (_write_ptr rb)).
  - rewrite Z.mod_small; lia.
  - rewrite mod_lap by lia. case_match; lia.
Qed.

Lemma contents_pushed v rb :
  wf rb → _is_full rb = false →
  contents (pushed v rb) = contents rb ++ [v].
Proof.
  intros Hwf Hfull.
  pose proof (wf_pushed v rb Hwf Hfull) as Hwf'.
  pose proof (size_pushed v rb Hwf Hfull) as Hsize.
  pose proof (length_contents rb Hwf) as Hlen. unfold span_size in Hlen.
  pose proof (write_slot rb Hwf Hfull) as Hslot.
  pose proof (size_bounds _ (proj1 (proj2 Hwf')) (proj1 (proj2 (proj2 Hwf'))))
    as Hsz'.
  destruct (Hwf) as (Hbuf & Hw & Hr & Hf). unfold span_size in Hbuf.
  pose proof (size_bounds rb Hw Hr) as Hsz.
  apply list_eq. intros i.
  destruct (Z.lt_trichotomy (Z.of_nat i) (size rb)) as [Hi|[Hi|Hi]].
  - rewrite lookup_app_l by lia.
    rewrite !lookup_contents by (done || lia). simpl.
    apply list_lookup_insert_ne.
    rewrite <- Hslot, !mod_lap by lia. repeat case_match; lia.
  - rewrite lookup_app_r by lia. rewrite lookup_contents by (done || lia).
    replace (i - length (contents rb))%nat with 0%nat by lia. simpl.
    rewrite Hi, Hslot. apply list_lookup_insert_eq. lia.
  - rewrite lookup_contents_ge by (done || lia).
    symmetry. apply lookup_ge_None_2. rewrite length_app. simpl. lia.
Qed.

(** *** [pop] removes the head *)

Lemma pop_unchecked_wf rb :
  wf rb →
  ∃ x, _buffer rb !! Z.to_nat (_read_ptr rb) = Some x ∧
       pop_unchecked Capacity rb = Some (x, popped rb).
Proof.
  intros (Hlen & Hw & Hr & _).
  unfold span_size in Hlen.
  destruct (lookup_lt_is_Some_2 (_buffer rb) (Z.to_nat (_read_ptr rb)))
    as [x Hx]; [lia|].
  exists x. split; [done|]. unfold pop_unchecked, load, popped, span_size.
  destruct (Z.leb_spec 0 (_read_ptr rb)); [simpl|lia].
  destruct (Z.ltb_spec (_read_ptr rb) (Z.of_nat (length (_buffer rb))));
    [simpl|lia].
  rewrite Hx, uadd_small, umod_Some by lia. done.
Qed.

Lemma pop_wf rb :
  wf rb → empty rb = false →
  ∃ x, _buffer rb !! Z.to_nat (_read_ptr rb) = Some x ∧
       pop Capacity rb = Some (Value x, popped rb).
Proof.
  intros Hwf Hne. destruct (pop_unchecked_wf rb Hwf) as (x & Hx & Hpop).
  exists x. split; [done|]. unfold pop, pop_unchecked in *. rewrite Hne.
  destruct (load _ _); simpl in *; [|done].
  destruct (umod _ _); simpl in *; [|done]. congruence.
Qed.

Lemma wf_popped rb : wf rb → wf (popped rb).
Proof.
  intros (Hlen & Hw & Hr & _).
  pose proof (Z.mod_pos_bound (_read_ptr rb + 1) Capacity Capacity_pos).
  unfold wf, cursors_ok, popped; simpl. split_and!; (lia || done).
Qed.

Lemma size_popped rb :
  wf rb → empty rb = false → size (popped rb) = size rb - 1.
Proof.
  intros (Hlen & Hw & Hr & Hf) Hne.
  pose proof (Z.mod_pos_bound (_read_ptr rb + 1) Capacity Capacity_pos).
  rewrite !size_in_range by (simpl; lia). simpl.
  unfold empty in Hne. rewrite mod_lap by lia.
  destruct (_is_full rb) eqn:Hfull.
  - rewrite Hf by done. repeat case_match; lia.
  - rewrite andb_true_r in Hne. apply Z.eqb_neq in Hne.
    repeat case_match; lia.
Qed.

Lemma contents_popped rb x :
  wf rb → empty rb = false →
  _buffer rb !! Z.to_nat (_read_ptr rb) = Some x →
  contents rb = x :: contents (popped rb).
Proof.
  intros Hwf Hne Hx.
  pose proof (wf_popped rb Hwf) as Hwf'.
  pose proof (size_popped rb Hwf Hne) as Hsize.
  pose proof (length_contents (popped rb) Hwf') as Hlen.
  unfold span_size in Hlen.
  destruct (Hwf) as (Hbuf & Hw & Hr & Hf).
  pose proof (size_bounds (popped rb) (proj1 (proj2 Hwf'))
                (proj1 (proj2 (proj2 Hwf')))) as Hsz.
  apply list_eq. intros [|i].
  - rewrite lookup_contents by (done || lia). simpl.
    rewrite Z.add_0_r, Z.mod_small by lia. done.
  - simpl. destruct (Z.lt_ge_cases (Z.of_nat (S i)) (size rb)) as [Hi|Hi].
    + rewrite !lookup_contents by (done || lia). simpl.
      rewrite Zplus_mod_idemp_l. do 3 f_equal. lia.
    + rewrite !lookup_contents_ge by (done || lia). done.
Qed.

(** ** Sequences of single-element operations *)

(** The buffer refines a queue: along an admissible run, what was in the
    buffer followed by what is pushed is what is popped followed by what is
    left. *)
Lemma run_refines_queue ops : ∀ rb,
  wf rb → within_bounds ops rb = true →
  ∃ rs rb', run ops rb = Some (rs, rb') ∧ wf rb' ∧
    forallb succeeded rs = true ∧
    length rs = length ops ∧
    length (popped_values rs) = pop_count ops ∧
    contents rb ++ pushed_values ops = popped_values rs ++ contents rb'.
Proof.
  induction ops as [|o ops IH]; intros rb Hwf Hok.
  - exists [], rb. simpl. rewrite app_nil_r. done.
  - simpl in Hok. apply andb_prop in Hok as [Hissue Hok].
    destruct o as [v|]; simpl in Hissue; apply negb_true_iff in Hissue.
    + pose proof (push_wf v rb Hwf Hissue) as Hpush.
      simpl in Hok |- *. rewrite Hpush in Hok |- *. simpl in Hok |- *.
      destruct (IH _ (wf_pushed v rb Hwf Hissue) Hok)
        as (rs & rb' & Hrun & Hwf' & Hall & Hlen & Hpops & Hq).
      exists (PushReply (Value ()) :: rs), rb'. rewrite Hrun. simpl.
      split_and!; try done; [by f_equal|].
      rewrite <- Hq, contents_pushed, <- app_assoc by done. done.
    + destruct (pop_wf rb Hwf Hissue) as (x & Hx & Hpop).
      simpl in Hok |- *. rewrite Hpop in Hok |- *. simpl in Hok |- *.
      destruct (IH _ (wf_popped rb Hwf) Hok)
        as (rs & rb' & Hrun & Hwf' & Hall & Hlen & Hpops & Hq).
      exists (PopReply (Value x) :: rs), rb'. rewrite Hrun. simpl.
      split_and!; try done; [by f_equal..|].
      rewrite (contents_popped rb x) by done. simpl. by f_equal.
Qed.

(** ** Reachable states *)

Lemma wf_in_range rb : wf rb → in_range rb.
Proof. intros (? & ? & ? & _). done. Qed.

Lemma store_length (a a' : list T) i v :
  store a i v = Some a' → span_size a' = span_size a.
Proof.
  unfold store, span_size. case_match; [|done].
  intros [= <-]. by rewrite length_insert.
Qed.

Lemma copy_length (src dst r : list T) pos :
  copy src dst pos = Some r → span_size r = span_size dst.
Proof.
  unfold copy, span_size. case_match eqn:Hguard; [|done].
  apply andb_prop in Hguard as [Hpos Hfit].
  apply Z.leb_le in Hpos, Hfit. intros [= <-].
  rewrite !length_app, length_take, length_drop. lia.
Qed.

Lemma umod_range a r : umod a Capacity = Some r → 0 ≤ r < Capacity.
Proof.
  unfold umod. case_match; [done|]. intros [= <-].
  by apply Z.mod_pos_bound.
Qed.

(** What each operation can leave behind: the buffer as it was, or new
    storage of the same extent with one cursor reduced modulo [Capacity]. *)
Lemma push_unchecked_inv v (rb rb' : RB) :
  push_unchecked Capacity v rb = Some rb' →
  ∃ buf wp,
    span_size buf = span_size (_buffer rb) ∧
    wp = (_write_ptr rb + 1) mod SIZE_MOD mod Capacity ∧
    0 ≤ wp < Capacity ∧
    rb' = mkRingBuffer buf wp (_read_ptr rb)
            (mark_full wp (_read_ptr rb) (_is_full rb)).
Proof.
  unfold push_unchecked. intros H.
  apply bind_Some in H as (buf & Hstore & H).
  apply bind_Some in H as (wp & Hmod & [= <-]).
  pose proof (umod_range _ _ Hmod) as [??].
  exists buf, wp. split_and!; eauto using store_length.
  unfold umod in Hmod. case_match; [done|]. by injection Hmod as <-.
Qed.

Lemma push_inv v (rb : RB) r rb' :
  push Capacity v rb = Some (r, rb') →
  (r = Unexpected Full ∧ rb' = rb ∧ _is_full rb = true) ∨
  (r = Value () ∧ _is_full rb = false ∧
   push_unchecked Capacity v rb = Some rb').
Proof.
  unfold push, push_unchecked. destruct (_is_full rb).
  - intros [= <- <-]. by left.
  - intros H. right. split_and!; try done.
    + apply bind_Some in H as (? & ? & H).
      apply bind_Some in H as (? & ? & [= <- _]). done.
    + destruct (store _ _ _); simpl in *; [|done].
      destruct (umod _ _); simpl in *; [|done]. congruence.
Qed.

Lemma push_buffer_inv buffer (rb : RB) r rb' :
  push_buffer Capacity buffer rb = Some (r, rb') →
  (r = Unexpected Full ∧ rb' = rb ∧ free rb < span_size buffer) ∨
  (r = Value () ∧ span_size buffer ≤ free rb ∧
   ∃ buf wp,
     span_size buf = span_size (_buffer rb) ∧
     wp = (_write_ptr rb + span_size buffer) mod SIZE_MOD mod Capacity ∧
     0 ≤ wp < Capacity ∧
     rb' = mkRingBuffer buf wp (_read_ptr rb)
             (mark_full wp (_read_ptr rb) (_is_full rb))).
Proof.
  unfold push_buffer.
  destruct (Z.ltb_spec (free rb) (span_size buffer)) as [Hlt|Hge].
  - intros H. left. destruct (_is_full rb); injection H as <- <-; done.
  - intros H. right. split_and!; try done.
    + apply bind_Some in H as (? & ? & H).
      apply bind_Some in H as (? & ? & [= <- _]). done.
    + apply bind_Some in H as (buf & Hbuf & H).
      apply bind_Some in H as (wp & Hmod & [= _ <-]).
      pose proof (umod_range _ _ Hmod) as [??].
      exists buf, wp. split_and!; try done.
      * case_match.
        -- apply bind_Some in Hbuf as (c1 & _ & Hbuf).
           apply bind_Some in Hbuf as (c2 & _ & Hbuf).
           apply bind_Some in Hbuf as (b1 & Hb1 & Hbuf).
           apply copy_length in Hb1, Hbuf. congruence.
        -- by apply copy_length in Hbuf.
      * unfold umod in Hmod. case_match; [done|]. by injection Hmod as <-.
Qed.

Lemma pop_unchecked_inv (rb : RB) x rb' :
  pop_unchecked Capacity rb = Some (x, rb') →
  ∃ rp, 0 ≤ rp < Capacity ∧
        rb' = mkRingBuffer (_buffer rb) (_write_ptr rb) rp false.
Proof.
  unfold pop_unchecked. intros H.
  apply bind_Some in H as (v & _ & H).
  apply bind_Some in H as (rp & Hmod & [= _ <-]).
  exists rp. split; [by eapply umod_range|done].
Qed.

Lemma pop_inv (rb : RB) r rb' :
  pop Capacity rb = Some (r, rb') →
  (r = Unexpected Empty ∧ rb' = rb ∧ empty rb = true) ∨
  (∃ x, r = Value x ∧ empty rb = false ∧
        pop_unchecked Capacity rb = Some (x, rb')).
Proof.
  unfold pop, pop_unchecked. destruct (empty rb).
  - intros [= <- <-]. by left.
  - intros H. right.
    destruct (load _ _) as [x|]; simpl in *; [|done].
    destruct (umod _ _); simpl in *; [|done].
    injection H as <- <-. by exists x.
Qed.

Lemma pop_buffer_inv out n (rb : RB) r rb' out' :
  pop_buffer Capacity out n rb = Some (r, rb', out') →
  (r = Unexpected Empty ∧ rb' = rb ∧ out' = out ∧ size rb < n) ∨
  (r = Value () ∧ n ≤ size rb ∧
   ∃ rp, 0 ≤ rp < Capacity ∧
         rb' = mkRingBuffer (_buffer rb) (_write_ptr rb) rp false).
Proof.
  unfold pop_buffer. destruct (Z.ltb_spec (size rb) n) as [Hlt|Hge].
  - intros H. left. destruct (empty rb); injection H as <- <- <-; done.
  - intros H. right.
    apply bind_Some in H as (o & _ & H).
    apply bind_Some in H as (rp & Hmod & [= <- <- _]).
    split; [done|]. split; [done|].
    exists rp. split; [by eapply umod_range|done].
Qed.

Lemma after_in_range c (rb rb' : RB) :
  in_range rb → after c rb = Some rb' → in_range rb'.
Proof.
  intros (Hlen & Hw & Hr) Hafter. unfold in_range.
  destruct c as [v|v|buffer| | |out n|]; simpl in Hafter.
  - apply fmap_Some in Hafter as ([r rb1] & Hpush & ->).
    apply push_inv in Hpush as [(_ & -> & _)|(_ & _ & Hpush)]; [done|].
    apply push_unchecked_inv in Hpush as (buf & wp & ? & _ & ? & ->).
    simpl. split_and!; (lia || congruence).
  - apply push_unchecked_inv in Hafter as (buf & wp & ? & _ & ? & ->).
    simpl. split_and!; (lia || congruence).
  - apply fmap_Some in Hafter as ([r rb1] & Hpush & ->).
    apply push_buffer_inv in Hpush
      as [(_ & -> & _)|(_ & _ & buf & wp & ? & _ & ? & ->)]; [done|].
    simpl. split_and!; (lia || congruence).
  - apply fmap_Some in Hafter as ([r rb1] & Hpop & ->).
    apply pop_inv in Hpop as [(_ & -> & _)|(x & _ & _ & Hpop)]; [done|].
    apply pop_unchecked_inv in Hpop as (rp & ? & ->). done.
  - apply fmap_Some in Hafter as ([x rb1] & Hpop & ->).
    apply pop_unchecked_inv in Hpop as (rp & ? & ->). done.
  - apply fmap_Some in Hafter as ([[r rb1] out'] & Hpop & ->).
    apply pop_buffer_inv in Hpop
      as [(_ & -> & _)|(_ & _ & rp & ? & ->)]; done.
  - injection Hafter as <-. simpl. split_and!; (lia || done).
Qed.

Lemma after_wf c (rb rb' : RB) :
  wf rb → room_for_unchecked c rb → after c rb = Some rb' → wf rb'.
Proof.
  intros Hwf Hroom Hafter.
  destruct (after_in_range c rb rb' (wf_in_range rb Hwf) Hafter)
    as (Hlen' & Hw' & Hr').
  split; [done|]. split; [done|]. split; [done|].
  destruct Hwf as (Hlen & Hw & Hr & Hf).
  destruct c as [v|v|buffer| | |out n|]; simpl in Hafter, Hroom.
  - apply fmap_Some in Hafter as ([r rb1] & Hpush & ->).
    apply push_inv in Hpush as [(_ & -> & _)|(_ & Hnf & Hpush)]; [done|].
    apply push_unchecked_inv in Hpush as (buf & wp & _ & _ & _ & ->).
    simpl. unfold mark_full. rewrite Hnf.
    destruct (Z.eqb_spec wp (_read_ptr rb)); done.
  - apply push_unchecked_inv in Hafter as (buf & wp & _ & _ & _ & ->).
    simpl. unfold mark_full. unfold full in Hroom. rewrite Hroom.
    destruct (Z.eqb_spec wp (_read_ptr rb)); done.
  - apply fmap_Some in Hafter as ([r rb1] & Hpush & ->).
    apply push_buffer_inv in Hpush
      as [(_ & -> & _)|(_ & Hfit & buf & wp & _ & Hwp & _ & ->)]; [done|].
    simpl. unfold mark_full.
    destruct (Z.eqb_spec wp (_read_ptr rb)); [done|]. intros Hfull.
    rewrite free_in_range, Hfull in Hfit by done.
    assert (span_size buffer = 0) as Hzero by (unfold span_size in *; lia).
    rewrite Hzero, Z.add_0_r, (Z.mod_small _ SIZE_MOD), Z.mod_small in Hwp
      by lia.
    specialize (Hf Hfull). congruence.
  - apply fmap_Some in Hafter as ([r rb1] & Hpop & ->).
    apply pop_inv in Hpop as [(_ & -> & _)|(x & _ & _ & Hpop)]; [done|].
    apply pop_unchecked_inv in Hpop as (rp & ? & ->). done.
  - apply fmap_Some in Hafter as ([x rb1] & Hpop & ->).
    apply pop_unchecked_inv in Hpop as (rp & ? & ->). done.
  - apply fmap_Some in Hafter as ([[r rb1] out'] & Hpop & ->).
    apply pop_buffer_inv in Hpop
      as [(_ & -> & _)|(_ & _ & rp & ? & ->)]; done.
  - injection Hafter as <-. done.
Qed.

Lemma reachable_in_range allowed rb :
  reachable allowed rb → in_range rb.
Proof.
  induction 1 as [|rb c rb' _ IH _ Hafter].
  - apply wf_in_range, wf_new.
  - eauto using after_in_range.
Qed.

Lemma reachable_wf rb : reachable room_for_unchecked rb → wf rb.
Proof.
  induction 1 as [|rb c rb' _ IH Hroom Hafter].
  - apply wf_new.
  - eauto using after_wf.
Qed.

Lemma reachable_weaken (allowed allowed' : call → RB → Prop) rb :
  (∀ c rb, allowed c rb → allowed' c rb) →
  reachable allowed rb → reachable allowed' rb.
Proof.
  intros Himpl. induction 1; [constructor|]. eapply reachable_call; eauto.
Qed.

(** ** The queries *)

Lemma empty_iff_size (rb : RB) :
  in_range rb → empty rb = true ↔ size rb = 0.
Proof.
  intros (_ & Hw & Hr). rewrite size_in_range by done. unfold empty.
  destruct (_is_full rb), (Z.eqb_spec (_write_ptr rb) (_read_ptr rb)),
    (Z.leb_spec (_read_ptr rb) (_write_ptr rb)); simpl; split; (done || lia).
Qed.

Lemma full_iff_size (rb : RB) :
  in_range rb → full rb = true ↔ size rb = Capacity.
Proof.
  intros (_ & Hw & Hr). rewrite size_in_range by done. unfold full.
  destruct (_is_full rb), (Z.leb_spec (_read_ptr rb) (_write_ptr rb));
    split; (done || lia).
Qed.

(** C7: in every state whose cursors lie in [[0, Capacity)], whatever the
    flag, [size() + free() == capacity()]; the sum is the same in [size_t]
    arithmetic and in the integers. *)
Theorem size_plus_free (rb : RB) :
  0 ≤ _write_ptr rb < Capacity → 0 ≤ _read_ptr rb < Capacity →
  uadd (size rb) (free rb) = capacity Capacity rb ∧
  size rb + free rb = capacity Capacity rb.
Proof.
  intros Hw Hr.
  assert (size rb + free rb = Capacity) as Hsum.
  { rewrite size_in_range, free_in_range by done.
    destruct (_is_full rb), (Z.leb_spec (_read_ptr rb) (_write_ptr rb)); lia. }
  unfold capacity. split; [|done]. rewrite uadd_small; lia.
Qed.

(** C4: a run of single pushes and pops from a fresh buffer that never
    pushes on a full buffer nor pops from an empty one is defined, every
    operation in it succeeds, the final [size()] is the number of pushes less
    the number of pops, and the popped values are the first pushed values in
    the order of their pushes; what was pushed and not popped is what the
    buffer still holds. *)
Theorem push_pop_fifo (ops : list op) :
  within_bounds ops (new T0 Capacity) = true →
  ∃ rs rb',
    run ops (new T0 Capacity) = Some (rs, rb') ∧
    length rs = length ops ∧
    forallb succeeded rs = true ∧
    size rb'
    = Z.of_nat (length (pushed_values ops)) - Z.of_nat (pop_count ops) ∧
    popped_values rs = take (pop_count ops) (pushed_values ops) ∧
    contents rb' = drop (pop_count ops) (pushed_values ops).
Proof.
  intros Hok.
  destruct (run_refines_queue ops _ wf_new Hok)
    as (rs & rb' & Hrun & Hwf' & Hall & Hlen & Hpops & Hq).
  rewrite contents_new in Hq. simpl in Hq.
  exists rs, rb'. split_and!; try done.
  - rewrite <- (length_contents rb' Hwf'), Hq, <- Hpops.
    unfold span_size. rewrite length_app. lia.
  - rewrite Hq. by rewrite take_app_length'.
  - rewrite Hq. by rewrite drop_app_length'.
Qed.

(** C5: each checked operation reports its error exactly when its guard
    fails, and then returns the buffer (and, for [pop_buffer], the
    destination) as it received it; when the guard holds no error comes
    back. *)
Theorem checked_errors_exact (rb : RB) :
  (∀ v,
     (full rb = true → push Capacity v rb = Some (Unexpected Full, rb)) ∧
     (full rb = false →
      ∀ e rb', push Capacity v rb ≠ Some (Unexpected e, rb'))) ∧
  (∀ buffer,
     (free rb < span_size buffer →
      push_buffer Capacity buffer rb = Some (Unexpected Full, rb)) ∧
     (span_size buffer ≤ free rb →
      ∀ e rb', push_buffer Capacity buffer rb ≠ Some (Unexpected e, rb'))) ∧
  ((empty rb = true → pop Capacity rb = Some (Unexpected Empty, rb)) ∧
   (empty rb = false →
    ∀ e rb', pop Capacity rb ≠ Some (Unexpected e, rb'))) ∧
  (∀ out n,
     (size rb < n →
      pop_buffer Capacity out n rb = Some (Unexpected Empty, rb, out)) ∧
     (n ≤ size rb →
      ∀ e rb' out',
        pop_buffer Capacity out n rb ≠ Some (Unexpected e, rb', out'))).
Proof.
  split; [|split; [|split]].
  - intros v. unfold full, push. split; intros Hfull; rewrite Hfull; [done|].
    intros e rb' Hpush.
    apply bind_Some in Hpush as (? & _ & Hpush).
    apply bind_Some in Hpush as (? & _ & [=]).
  - intros buffer. unfold push_buffer. split; intros Hguard.
    + destruct (Z.ltb_spec (free rb) (span_size buffer)); [|lia].
      by destruct (_is_full rb).
    + destruct (Z.ltb_spec (free rb) (span_size buffer)); [lia|].
      intros e rb' Hpush.
      apply bind_Some in Hpush as (? & _ & Hpush).
      apply bind_Some in Hpush as (? & _ & [=]).
  - unfold pop. split; intros Hempty; rewrite Hempty; [done|].
    intros e rb' Hpop.
    apply bind_Some in Hpop as (? & _ & Hpop).
    apply bind_Some in Hpop as (? & _ & [=]).
  - intros out n. unfold pop_buffer. split; intros Hguard.
    + destruct (Z.ltb_spec (size rb) n); [|lia]. by destruct (empty rb).
    + destruct (Z.ltb_spec (size rb) n); [lia|].
      intros e rb' out' Hpop.
      apply bind_Some in Hpop as (? & _ & Hpop).
      apply bind_Some in Hpop as (? & _ & [=]).
Qed.

(** C6, amended: through every public operation the cursors stay in
    [[0, Capacity)]; and as long as [push_unchecked] is only called while the
    buffer is not full, [_is_full] implies [_write_ptr == _read_ptr]. *)
Theorem reachable_cursors_ok (rb : RB) :
  (reachable any_call rb →
   0 ≤ _write_ptr rb < Capacity ∧ 0 ≤ _read_ptr rb < Capacity) ∧
  (reachable room_for_unchecked rb → cursors_ok rb).
Proof.
  split.
  - intros Hreach. by destruct (reachable_in_range _ _ Hreach) as (_ & ? & ?).
  - intros Hreach. by destruct (reachable_wf _ Hreach) as (_ & ?).
Qed.

(** C10: in every state reached through [push], [push_buffer], [pop],
    [pop_buffer] and [clear], [empty()] holds exactly when [size() == 0] and
    [full()] exactly when [size() == capacity()]. *)
Theorem empty_full_iff_size (rb : RB) :
  reachable checked_call rb →
  (empty rb = true ↔ size rb = 0) ∧
  (full rb = true ↔ size rb = capacity Capacity rb).
Proof.
  intros Hreach. pose proof (reachable_in_range _ _ Hreach).
  split; [by apply empty_iff_size|by apply full_iff_size].
Qed.

(** C9: on an empty buffer, [push_buffer] of a zero-length batch succeeds
    and leaves the storage and both cursors as they were, yet afterwards
    [full()] holds and [size()] is [capacity()]. *)
Theorem push_buffer_nothing_fills (rb : RB) :
  wf rb → size rb = 0 →
  ∃ rb',
    push_buffer Capacity [] rb = Some (Value (), rb') ∧
    full rb' = true ∧ size rb' = capacity Capacity rb' ∧
    _buffer rb' = _buffer rb ∧
    _write_ptr rb' = _write_ptr rb ∧ _read_ptr rb' = _read_ptr rb.
Proof.
  intros Hwf Hsize.
  pose proof (proj2 (empty_iff_size rb (wf_in_range rb Hwf)) Hsize) as Hempty.
  destruct Hwf as (Hlen & Hw & Hr & _).
  unfold empty in Hempty. apply andb_prop in Hempty as [Heq Hnf].
  apply Z.eqb_eq in Heq. apply negb_true_iff in Hnf.
  exists (mkRingBuffer (_buffer rb) (_write_ptr rb) (_read_ptr rb) true).
  split; [|done].
  unfold push_buffer. rewrite free_in_range, Hnf by done.
  change (span_size (@nil T)) with 0.
  destruct (Z.leb_spec (_read_ptr rb) (_write_ptr rb)); [|lia].
  destruct (Z.ltb_spec (Capacity - _write_ptr rb + _read_ptr rb) 0); [lia|].
  rewrite usub_small by lia.
  destruct (Z.ltb_spec (Capacity - _write_ptr rb) 0); [lia|].
  unfold copy. change (span_size (@nil T)) with 0.
  destruct (Z.leb_spec 0 (_write_ptr rb)); [simpl|lia].
  destruct (Z.leb_spec (_write_ptr rb + 0) (span_size (_buffer rb)));
    [simpl|lia].
  rewrite uadd_small, umod_Some, Z.add_0_r, Z.mod_small, take_drop by lia.
  simpl. unfold mark_full. rewrite Heq, Z.eqb_refl. done.
Qed.

(** ** Batches *)

(** An index within one lap of [[0, Capacity)]. *)
Lemma mod_near x :
  - Capacity ≤ x < 2 * Capacity →
  x mod Capacity =
    if x <? 0 then x + Capacity else if x <? Capacity then x else x - Capacity.
Proof.
  intros Hx. destruct (Z.ltb_spec x 0); [|destruct (Z.ltb_spec x Capacity)].
  - symmetry. apply Z.mod_unique with (q := -1); lia.
  - apply Z.mod_small; lia.
  - symmetry. apply Z.mod_unique with (q := 1); lia.
Qed.

Lemma lookup_copy (src dst r : list T) pos (i : nat) :
  copy src dst pos = Some r →
  r !! i =
    if (pos <=? Z.of_nat i) && (Z.of_nat i <? pos + span_size src)
    then src !! Z.to_nat (Z.of_nat i - pos)
    else dst !! i.
Proof.
  unfold copy, span_size. case_match eqn:Hguard; [|done].
  apply andb_prop in Hguard as [Hpos Hfit].
  apply Z.leb_le in Hpos, Hfit. intros [= <-].
  destruct (Z.leb_spec pos (Z.of_nat i)); simpl.
  - rewrite lookup_app_r by (rewrite length_take; lia).
    rewrite length_take.
    destruct (Z.ltb_spec (Z.of_nat i) (pos + Z.of_nat (length src))).
    + rewrite lookup_app_l by lia. f_equal. lia.
    + rewrite lookup_app_r by lia. rewrite lookup_drop. f_equal. lia.
  - rewrite lookup_app_l by (rewrite length_take; lia).
    apply lookup_take_lt. lia.
Qed.

(** The storage [push_buffer] leaves: the slot at distance [k] from the
    write cursor, going round, holds item [k] of the batch; the others are
    as they were. *)
Lemma push_buffer_storage (buffer : list T) (rb rb' : RB) (i : nat) :
  wf rb → span_size buffer ≤ free rb →
  push_buffer Capacity buffer rb = Some (Value (), rb') →
  Z.of_nat i < Capacity →
  _buffer rb' !! i =
    let k := (Z.of_nat i - _write_ptr rb) mod Capacity in
    if k <? span_size buffer then buffer !! Z.to_nat k else _buffer rb !! i.
Proof.
  intros (Hlen & Hw & Hr & Hf) Hfit Hpush Hi.
  pose proof (size_bounds rb Hw Hr) as Hsz.
  assert (free rb ≤ Capacity) as Hfree.
  { rewrite free_in_range by done. repeat case_match; lia. }
  unfold push_buffer in Hpush.
  destruct (Z.ltb_spec (free rb) (span_size buffer)); [lia|].
  apply bind_Some in Hpush as (buf & Hbuf & Hpush).
  apply bind_Some in Hpush as (wp & _ & [= <-]). simpl.
  rewrite usub_small in Hbuf by lia.
  rewrite mod_near by lia. unfold span_size in *.
  destruct (Z.ltb_spec (Capacity - _write_ptr rb) (Z.of_nat (length buffer))).
  - apply bind_Some in Hbuf as (chunk1 & Hc1 & Hbuf).
    apply bind_Some in Hbuf as (chunk2 & Hc2 & Hbuf).
    apply bind_Some in Hbuf as (buf1 & Hb1 & Hbuf).
    rewrite usub_small in Hc2 by lia.
    unfold span_first, span_last, span_size in Hc1, Hc2.
    destruct (Z.leb_spec 0 (Capacity - _write_ptr rb)); [|lia].
    destruct (Z.leb_spec (Capacity - _write_ptr rb) (Z.of_nat (length buffer)));
      [|lia].
    destruct (Z.leb_spec 0 (Z.of_nat (length buffer)
                             - (Capacity - _write_ptr rb))); [|lia].
    destruct (Z.leb_spec (Z.of_nat (length buffer) - (Capacity - _write_ptr rb))
                (Z.of_nat (length buffer))); [|lia].
    simpl in Hc1, Hc2. injection Hc1 as <-. injection Hc2 as <-.
    rewrite (lookup_copy _ _ _ _ i Hbuf), (lookup_copy _ _ _ _ i Hb1).
    unfold span_size. rewrite length_take, length_drop.
    destruct (Z.ltb_spec (Z.of_nat i - _write_ptr rb) 0).
    + destruct (Z.leb_spec (_write_ptr rb) (Z.of_nat i)); [lia|]. simpl.
      destruct (Z.leb_spec 0 (Z.of_nat i)); [simpl|lia].
      destruct (Z.ltb_spec (Z.of_nat i - _write_ptr rb + Capacity)
                  (Z.of_nat (length buffer)));
        case_match eqn:Hin; try apply Z.ltb_lt in Hin;
        try apply Z.ltb_ge in Hin; try lia; [|done].
      rewrite lookup_drop. f_equal. lia.
    + destruct (Z.ltb_spec (Z.of_nat i - _write_ptr rb) Capacity); [|lia].
      destruct (Z.leb_spec (_write_ptr rb) (Z.of_nat i)); [simpl|lia].
      destruct (Z.leb_spec 0 (Z.of_nat i)); [simpl|lia].
      case_match eqn:Hin; try apply Z.ltb_lt in Hin;
        try apply Z.ltb_ge in Hin; [lia|].
      destruct (Z.ltb_spec (Z.of_nat i - _write_ptr rb)
                  (Z.of_nat (length buffer)));
        case_match eqn:Hin'; try apply Z.ltb_lt in Hin';
        try apply Z.ltb_ge in Hin'; try lia.
      apply lookup_take_lt. lia.
  - rewrite (lookup_copy _ _ _ _ i Hbuf). unfold span_size.
    destruct (Z.ltb_spec (Z.of_nat i - _write_ptr rb) 0).
    + destruct (Z.leb_spec (_write_ptr rb) (Z.of_nat i)); [lia|]. simpl.
      destruct (Z.ltb_spec (Z.of_nat i - _write_ptr rb + Capacity)
                  (Z.of_nat (length buffer))); [lia|done].
    + destruct (Z.ltb_spec (Z.of_nat i - _write_ptr rb) Capacity); [|lia].
      destruct (Z.leb_spec (_write_ptr rb) (Z.of_nat i)); [simpl|lia].
      destruct (Z.ltb_spec (Z.of_nat i - _write_ptr rb)
                  (Z.of_nat (length buffer)));
        case_match eqn:Hin; try apply Z.ltb_lt in Hin;
        try apply Z.ltb_ge in Hin; (done || lia).
Qed.

Lemma free_is_room (rb : RB) : wf rb → free rb = Capacity - size rb.
Proof.
  intros (_ & Hw & Hr & _). rewrite free_in_range, size_in_range by done.
  repeat case_match; lia.
Qed.

Lemma push_buffer_defined (buffer : list T) (rb : RB) :
  wf rb → 2 * Capacity ≤ SIZE_MOD → span_size buffer ≤ free rb →
  ∃ buf,
    let wp := (_write_ptr rb + span_size buffer) mod Capacity in
    push_buffer Capacity buffer rb
    = Some (Value (), mkRingBuffer buf wp (_read_ptr rb)
                        (mark_full wp (_read_ptr rb) (_is_full rb))) ∧
    span_size buf = Capacity.
Proof.
  intros Hwf Hcap Hfit. pose proof (free_is_room rb Hwf) as Hfree.
  destruct Hwf as (Hlen & Hw & Hr & _).
  pose proof (size_bounds rb Hw Hr) as Hsz.
  assert (∃ buf,
    (if usub Capacity (_write_ptr rb) <? span_size buffer then
       chunk1 ← span_first (usub Capacity (_write_ptr rb)) buffer;
       chunk2 ← span_last (usub (span_size buffer)
                             (usub Capacity (_write_ptr rb))) buffer;
       buf1 ← copy chunk1 (_buffer rb) (_write_ptr rb);
       copy chunk2 buf1 0
     else copy buffer (_buffer rb) (_write_ptr rb)) = Some buf)
    as (buf & Hbuf).
  { rewrite usub_small by lia. unfold span_size in *.
    destruct (Z.ltb_spec (Capacity - _write_ptr rb) (Z.of_nat (length buffer))).
    - rewrite usub_small by lia. unfold span_first, span_last, span_size.
      destruct (Z.leb_spec 0 (Capacity - _write_ptr rb)); [|lia].
      destruct (Z.leb_spec (Capacity - _write_ptr rb)
                  (Z.of_nat (length buffer))); [|lia].
      destruct (Z.leb_spec 0 (Z.of_nat (length buffer)
                               - (Capacity - _write_ptr rb))); [|lia].
      destruct (Z.leb_spec (Z.of_nat (length buffer)
                             - (Capacity - _write_ptr rb))
                  (Z.of_nat (length buffer))); [|lia].
      simpl. unfold copy at 2, span_size. rewrite length_take.
      destruct (Z.leb_spec 0 (_write_ptr rb)); [|lia].
      destruct (Z.leb_spec
                  (_write_ptr rb
                   + Z.of_nat (Z.to_nat (Capacity - _write_ptr rb)
                                 `min` length buffer))
                  (Z.of_nat (length (_buffer rb)))); [|lia].
      simpl. unfold copy, span_size.
      rewrite !length_app, length_take, length_drop, length_take, length_drop.
      destruct (Z.leb_spec 0 0); [|lia]. simpl.
      case_match eqn:Hin; [by eexists|]. apply Z.leb_gt in Hin. lia.
    - unfold copy, span_size.
      destruct (Z.leb_spec 0 (_write_ptr rb)); [|lia].
      destruct (Z.leb_spec (_write_ptr rb + Z.of_nat (length buffer))
                  (Z.of_nat (length (_buffer rb)))); [|lia].
      by eexists. }
  exists buf. simpl. unfold push_buffer.
  destruct (Z.ltb_spec (free rb) (span_size buffer)); [lia|].
  rewrite Hbuf. simpl.
  rewrite uadd_small, umod_Some by (unfold span_size in *; lia). simpl.
  split; [done|].
  case_match.
  - apply bind_Some in Hbuf as (c1 & _ & Hbuf).
    apply bind_Some in Hbuf as (c2 & _ & Hbuf).
    apply bind_Some in Hbuf as (b1 & Hb1 & Hbuf).
    apply copy_length in Hb1, Hbuf. congruence.
  - apply copy_length in Hbuf. congruence.
Qed.

(** [push_buffer] appends the batch, unless the batch is empty and so is
    the buffer. *)
Lemma push_buffer_appends (buffer : list T) (rb : RB) :
  wf rb → 2 * Capacity ≤ SIZE_MOD → span_size buffer ≤ free rb →
  buffer ≠ [] ∨ empty rb = false →
  ∃ rb',
    push_buffer Capacity buffer rb = Some (Value (), rb') ∧ wf rb' ∧
    _write_ptr rb' = (_write_ptr rb + span_size buffer) mod Capacity ∧
    _read_ptr rb' = _read_ptr rb ∧
    size rb' = size rb + span_size buffer ∧
    contents rb' = contents rb ++ buffer.
Proof.
  intros Hwf Hcap Hfit Hsome.
  destruct (push_buffer_defined buffer rb Hwf Hcap Hfit)
    as (buf & Hpush & Hbuf).
  pose proof (free_is_room rb Hwf) as Hfree.
  pose proof (length_contents rb Hwf) as Hclen.
  pose proof (λ i, push_buffer_storage buffer rb _ i Hwf Hfit Hpush) as Hsto.
  simpl in Hpush, Hsto.
  set (wp := (_write_ptr rb + span_size buffer) mod Capacity) in *.
  set (rb' := mkRingBuffer buf wp _ _) in *.
  assert (0 ≤ span_size buffer) as HL by (unfold span_size; lia).
  assert (span_size buffer = 0 → empty rb = false) as Hnot_both.
  { intros H0. destruct Hsome as [Hne|]; [|done].
    destruct buffer; [done|]. unfold span_size in H0. simpl in H0. lia. }
  destruct (Hwf) as (Hlen & Hw & Hr & Hf).
  pose proof (size_bounds rb Hw Hr) as Hsz.
  assert (0 ≤ wp < Capacity) as Hwp by (apply Z.mod_pos_bound; lia).
  assert (wp = if _write_ptr rb + span_size buffer <? Capacity
               then _write_ptr rb + span_size buffer
               else _write_ptr rb + span_size buffer - Capacity) as Hwp_eq
    by (subst wp; apply mod_lap; lia).
  assert (_is_full rb = false → _write_ptr rb = _read_ptr rb →
          span_size buffer ≠ 0) as Hne.
  { intros Hnf Heq H0. specialize (Hnot_both H0). unfold empty in Hnot_both.
    rewrite Hnf, Heq, Z.eqb_refl in Hnot_both. done. }
  assert (size rb' = size rb + span_size buffer ∧
          (_is_full rb' = true → wp = _read_ptr rb)) as [Hsize Hf'].
  { rewrite (size_in_range rb'), (size_in_range rb) by done.
    rewrite Hfree, (size_in_range rb) in Hfit by done.
    subst rb'. simpl. unfold mark_full. clearbody wp.
    destruct (_is_full rb);
      [specialize (Hf eq_refl)|specialize (Hne eq_refl)];
      repeat case_match; split; (lia || done). }
  assert (wf rb') as Hwf' by done.
  exists rb'. split_and!; try done.
  apply list_eq. intros i.
  destruct (Z.lt_ge_cases (Z.of_nat i) (size rb + span_size buffer)) as [Hi|Hi].
  - rewrite (lookup_contents rb') by (done || lia).
    change (_read_ptr rb') with (_read_ptr rb).
    change (_buffer rb') with buf.
    pose proof (Z.mod_pos_bound (_read_ptr rb + Z.of_nat i) Capacity
                  Capacity_pos) as Hslot.
    rewrite Hsto by lia. rewrite Z2Nat.id by lia. simpl.
    rewrite Zminus_mod_idemp_l.
    assert ((_read_ptr rb + Z.of_nat i - _write_ptr rb) mod Capacity
            = (Z.of_nat i - size rb) mod Capacity) as ->.
    { destruct (_is_full rb) eqn:Hfull.
      - rewrite (size_in_range rb), Hfull, Hf by done.
        replace (_read_ptr rb + Z.of_nat i - _read_ptr rb)
          with (Z.of_nat i - Capacity + 1 * Capacity) by lia.
        by rewrite Z.mod_add by lia.
      - rewrite <- (write_slot rb Hwf Hfull), Zminus_mod_idemp_r.
        f_equal. lia. }
    rewrite mod_near by lia.
    destruct (Z.ltb_spec (Z.of_nat i - size rb) 0).
    + destruct (Z.ltb_spec (Z.of_nat i - size rb + Capacity)
                  (span_size buffer)); [lia|].
      rewrite lookup_app_l by (unfold span_size in *; lia).
      rewrite lookup_contents by (done || lia). done.
    + destruct (Z.ltb_spec (Z.of_nat i - size rb) Capacity); [|lia].
      destruct (Z.ltb_spec (Z.of_nat i - size rb) (span_size buffer)); [|lia].
      rewrite lookup_app_r by (unfold span_size in *; lia).
      f_equal. unfold span_size in *. lia.
  - rewrite lookup_contents_ge by (done || lia).
    symmetry. apply lookup_ge_None_2. rewrite length_app.
    unfold span_size in *. lia.
Qed.

Lemma wf_popped_n n rb : wf rb → wf (popped_n n rb).
Proof.
  intros (Hlen & Hw & Hr & _).
  pose proof (Z.mod_pos_bound (_read_ptr rb + n) Capacity Capacity_pos).
  unfold wf, cursors_ok, popped_n; simpl. split_and!; (lia || done).
Qed.

(** Removing [n] elements drops them from the front of the queue, unless
    nothing is requested from a full buffer. *)
Lemma contents_popped_n n rb :
  wf rb → 0 ≤ n ≤ size rb → 0 < n ∨ _is_full rb = false →
  size (popped_n n rb) = size rb - n ∧
  contents (popped_n n rb) = drop (Z.to_nat n) (contents rb).
Proof.
  intros Hwf Hn Hsome. pose proof (wf_popped_n n rb Hwf) as Hwf'.
  destruct (Hwf) as (Hlen & Hw & Hr & Hf).
  pose proof (size_bounds rb Hw Hr) as Hsz.
  pose proof (length_contents rb Hwf) as Hclen. unfold span_size in Hclen.
  assert (size (popped_n n rb) = size rb - n) as Hsize.
  { rewrite (size_in_range (popped_n n rb)) by apply Hwf'. simpl.
    rewrite mod_lap by lia.
    rewrite (size_in_range rb) in Hn |- * by done.
    destruct (_is_full rb) eqn:Hfull.
    - specialize (Hf eq_refl). destruct Hsome as [Hpos|]; [|done].
      repeat case_match; lia.
    - repeat case_match; lia. }
  split; [done|]. apply list_eq. intros i. rewrite lookup_drop.
  destruct (Z.lt_ge_cases (Z.of_nat i) (size rb - n)) as [Hi|Hi].
  - rewrite !lookup_contents by (done || lia). simpl.
    rewrite Zplus_mod_idemp_l. do 3 f_equal. lia.
  - rewrite !lookup_contents_ge by (done || lia). done.
Qed.

Lemma lookup_splice (a b : list T) (n i : nat) :
  (n ≤ length a)%nat →
  (take n a ++ drop n b) !! i = if (i <? n)%nat then a !! i else b !! i.
Proof.
  intros Hn. destruct (Nat.ltb_spec i n).
  - rewrite lookup_app_l by (rewrite length_take; lia).
    by apply lookup_take_lt.
  - rewrite lookup_app_r by (rewrite length_take; lia).
    rewrite length_take, lookup_drop. f_equal. lia.
Qed.

(** A request that reaches the physical end of the storage is served as
    the data model asks: the [n] oldest elements, in order, and nothing
    else of the destination is touched. *)
Lemma pop_buffer_to_the_end (out : list T) (n : Z) (rb : RB) :
  wf rb → 2 * Capacity ≤ SIZE_MOD →
  0 ≤ n ≤ size rb → n ≤ span_size out →
  Capacity - _read_ptr rb ≤ n →
  pop_buffer Capacity out n rb
  = Some (Value (), popped_n n rb,
          take (Z.to_nat n) (contents rb) ++ drop (Z.to_nat n) out).
Proof.
  intros Hwf Hcap Hn Hout Hend.
  destruct (Hwf) as (Hlen & Hw & Hr & Hf).
  pose proof (size_bounds rb Hw Hr) as Hsz.
  pose proof (length_contents rb Hwf) as Hclen.
  unfold span_size in Hclen, Hlen, Hout.
  unfold pop_buffer. destruct (Z.ltb_spec (size rb) n); [lia|].
  rewrite !usub_small, uadd_small, umod_Some by lia.
  assert (∀ out',
    length out' = length out →
    (∀ i : nat, out' !! i =
       if (i <? Z.to_nat n)%nat then contents rb !! i else out !! i) →
    out' = take (Z.to_nat n) (contents rb) ++ drop (Z.to_nat n) out)
    as Hpointwise.
  { intros out' Hlen' Hout'. apply list_eq. intros i.
    rewrite lookup_splice by lia. apply Hout'. }
  assert (∀ i : nat, Z.of_nat i < n →
    contents rb !! i =
      if Z.of_nat i <? Capacity - _read_ptr rb
      then _buffer rb !! (Z.to_nat (_read_ptr rb) + i)%nat
      else _buffer rb !! (i - Z.to_nat (Capacity - _read_ptr rb))%nat)
    as Hslot.
  { intros i Hi. rewrite lookup_contents, mod_lap by (done || lia).
    destruct (Z.ltb_spec (Z.of_nat i) (Capacity - _read_ptr rb));
      case_match eqn:Hin; try apply Z.ltb_lt in Hin;
      try apply Z.ltb_ge in Hin; try lia; f_equal; lia. }
  destruct (Z.ltb_spec (Capacity - _read_ptr rb) n) as [Hwrap|Hexact].
  - unfold span_last, span_first, span_size.
    destruct (Z.leb_spec 0 (Capacity - _read_ptr rb)); [|lia].
    destruct (Z.leb_spec (Capacity - _read_ptr rb)
                (Z.of_nat (length (_buffer rb)))); [|lia].
    destruct (Z.leb_spec 0 (n - (Capacity - _read_ptr rb))); [|lia].
    destruct (Z.leb_spec (n - (Capacity - _read_ptr rb))
                (Z.of_nat (length (_buffer rb)))); [|lia].
    simpl.
    destruct (copy (drop _ (_buffer rb)) out 0) as [out1|] eqn:Hout1.
    2:{ unfold copy, span_size in Hout1. rewrite length_drop in Hout1.
        destruct (Z.leb_spec 0 0); [|lia]. simpl in Hout1.
        case_match eqn:Hin; [done|]. apply Z.leb_gt in Hin. lia. }
    pose proof (copy_length _ _ _ _ Hout1) as Hlen1.
    unfold span_size in Hlen1. simpl.
    destruct (copy (take _ (_buffer rb)) out1 _) as [out2|] eqn:Hout2.
    2:{ unfold copy, span_size in Hout2. rewrite length_take in Hout2.
        destruct (Z.leb_spec 0 (Capacity - _read_ptr rb)); [|lia].
        simpl in Hout2.
        case_match eqn:Hin; [done|]. apply Z.leb_gt in Hin. lia. }
    pose proof (copy_length _ _ _ _ Hout2) as Hlen2.
    unfold span_size in Hlen2. simpl. do 2 f_equal.
    apply Hpointwise; [lia|]. intros i.
    rewrite (lookup_copy _ _ _ _ i Hout2), (lookup_copy _ _ _ _ i Hout1).
    unfold span_size. rewrite length_take, length_drop.
    destruct (Nat.ltb_spec i (Z.to_nat n)).
    + rewrite Hslot by lia.
      destruct (Z.ltb_spec (Z.of_nat i) (Capacity - _read_ptr rb)).
      * destruct (Z.leb_spec (Capacity - _read_ptr rb) (Z.of_nat i)); [lia|].
        simpl. destruct (Z.leb_spec 0 (Z.of_nat i)); [simpl|lia].
        case_match eqn:Hin; [|apply Z.ltb_ge in Hin; lia].
        rewrite lookup_drop. f_equal. lia.
      * destruct (Z.leb_spec (Capacity - _read_ptr rb) (Z.of_nat i)); [|lia].
        simpl. case_match eqn:Hin; [|apply Z.ltb_ge in Hin; lia].
        rewrite lookup_take_lt by lia. f_equal. lia.
    + destruct (Z.leb_spec (Capacity - _read_ptr rb) (Z.of_nat i)); [|lia].
      simpl. case_match eqn:Hin; [apply Z.ltb_lt in Hin; lia|].
      destruct (Z.leb_spec 0 (Z.of_nat i)); [simpl|lia].
      case_match eqn:Hin'; [apply Z.ltb_lt in Hin'; lia|done].
  - assert (n = Capacity - _read_ptr rb) as Hn_eq by lia.
    unfold range, span_size.
    destruct (Z.leb_spec 0 (_read_ptr rb)); [|lia].
    destruct (Z.leb_spec 0 (Capacity - _read_ptr rb)); [|lia].
    destruct (Z.leb_spec (_read_ptr rb + (Capacity - _read_ptr rb))
                (Z.of_nat (length (_buffer rb)))); [|lia].
    simpl.
    destruct (copy (take _ (drop _ (_buffer rb))) out 0) as [out1|] eqn:Hout1.
    2:{ unfold copy, span_size in Hout1.
        rewrite length_take, length_drop in Hout1.
        destruct (Z.leb_spec 0 0); [|lia]. simpl in Hout1.
        case_match eqn:Hin; [done|]. apply Z.leb_gt in Hin. lia. }
    pose proof (copy_length _ _ _ _ Hout1) as Hlen1.
    unfold span_size in Hlen1. simpl. do 2 f_equal.
    apply Hpointwise; [lia|]. intros i.
    rewrite (lookup_copy _ _ _ _ i Hout1).
    unfold span_size. rewrite length_take, length_drop.
    destruct (Z.leb_spec 0 (Z.of_nat i)); [simpl|lia].
    destruct (Nat.ltb_spec i (Z.to_nat n)).
    + rewrite Hslot by lia.
      destruct (Z.ltb_spec (Z.of_nat i) (Capacity - _read_ptr rb)); [|lia].
      case_match eqn:Hin; [|apply Z.ltb_ge in Hin; lia].
      rewrite lookup_take_lt, lookup_drop by lia. f_equal. lia.
    + case_match eqn:Hin; [apply Z.ltb_lt in Hin; lia|done].
Qed.

(** A request that stops short of the physical end: the copy still runs to
    the physical end, [Capacity - _read_ptr] elements whatever [n] is. *)
Lemma pop_buffer_short_of_the_end (out : list T) (n : Z) (rb : RB) :
  wf rb → 0 ≤ n ≤ size rb → n < Capacity - _read_ptr rb →
  pop_buffer Capacity out n rb
  = if Capacity - _read_ptr rb <=? span_size out
    then Some (Value (), popped_n n rb,
               drop (Z.to_nat (_read_ptr rb)) (_buffer rb)
                 ++ drop (Z.to_nat (Capacity - _read_ptr rb)) out)
    else None.
Proof.
  intros (Hlen & Hw & Hr & Hf) Hn Hshort. unfold span_size in *.
  unfold pop_buffer. destruct (Z.ltb_spec (size rb) n); [lia|].
  rewrite !usub_small, uadd_small, umod_Some by lia.
  destruct (Z.ltb_spec (Capacity - _read_ptr rb) n); [lia|].
  unfold range, span_size.
  destruct (Z.leb_spec 0 (_read_ptr rb)); [|lia].
  destruct (Z.leb_spec 0 (Capacity - _read_ptr rb)); [|lia].
  destruct (Z.leb_spec (_read_ptr rb + (Capacity - _read_ptr rb))
              (Z.of_nat (length (_buffer rb)))); [|lia].
  simpl. rewrite take_ge by (rewrite length_drop; lia).
  unfold copy, span_size. rewrite length_drop.
  destruct (Z.leb_spec 0 0); [simpl|lia].
  destruct (Z.leb_spec (Capacity - _read_ptr rb) (Z.of_nat (length out)));
    case_match eqn:Hin; try apply Z.leb_le in Hin; try apply Z.leb_gt in Hin;
    try lia; [|done].
  simpl. do 4 f_equal. lia.
Qed.

(** ** The operations on a well-formed buffer *)

Lemma contents_empty (rb : RB) : wf rb → empty rb = true → contents rb = [].
Proof.
  intros Hwf Hempty.
  pose proof (proj1 (empty_iff_size rb (wf_in_range rb Hwf)) Hempty) as Hsize.
  unfold contents. by rewrite Hsize.
Qed.

(** X1: on a well-formed buffer [push] fails exactly when the buffer is
    full; otherwise it appends the value to the queue, [size()] grows by one,
    the read cursor stays, and the buffer is full afterwards exactly when it
    then holds [Capacity] elements. *)
Theorem push_enqueues (v : T) (rb : RB) :
  wf rb →
  (full rb = true → push Capacity v rb = Some (Unexpected Full, rb)) ∧
  (full rb = false →
   ∃ rb', push Capacity v rb = Some (Value (), rb') ∧ wf rb' ∧
          contents rb' = contents rb ++ [v] ∧
          size rb' = size rb + 1 ∧
          _read_ptr rb' = _read_ptr rb ∧
          (full rb' = true ↔ size rb + 1 = Capacity)).
Proof.
  intros Hwf. unfold full. split; intros Hfull.
  - unfold push. by rewrite Hfull.
  - exists (pushed v rb).
    pose proof (wf_pushed v rb Hwf Hfull) as Hwf'.
    pose proof (size_pushed v rb Hwf Hfull) as Hsize.
    split_and!; auto using push_wf, contents_pushed.
    rewrite <- Hsize. apply full_iff_size. by apply wf_in_range.
Qed.

(** X2: on a well-formed buffer [pop] fails exactly when the buffer is
    empty, and then the queue is empty; otherwise it returns the head of the
    queue and leaves its tail, without touching the storage or the write
    cursor. *)
Theorem pop_dequeues (rb : RB) :
  wf rb →
  (empty rb = true →
   pop Capacity rb = Some (Unexpected Empty, rb) ∧ contents rb = []) ∧
  (empty rb = false →
   ∃ x rb', pop Capacity rb = Some (Value x, rb') ∧ wf rb' ∧
            contents rb = x :: contents rb' ∧
            size rb' = size rb - 1 ∧
            _buffer rb' = _buffer rb ∧ _write_ptr rb' = _write_ptr rb).
Proof.
  intros Hwf. split; intros Hempty.
  - split; [|by apply contents_empty]. unfold pop. by rewrite Hempty.
  - destruct (pop_wf rb Hwf Hempty) as (x & Hx & Hpop).
    exists x, (popped rb).
    split_and!; auto using wf_popped, contents_popped, size_popped.
Qed.

(** X3: a batch that fits is appended to the queue in order, [size()]
    grows by its length and the buffer is full afterwards exactly when it
    then holds [Capacity] elements, whether or not the batch wraps round
    the end of the storage; the one exception is the empty batch on an empty
    buffer. *)
Theorem push_buffer_enqueues (buffer : list T) (rb : RB) :
  wf rb → 2 * Capacity ≤ SIZE_MOD → span_size buffer ≤ free rb →
  buffer ≠ [] ∨ empty rb = false →
  ∃ rb',
    push_buffer Capacity buffer rb = Some (Value (), rb') ∧ wf rb' ∧
    contents rb' = contents rb ++ buffer ∧
    size rb' = size rb + span_size buffer ∧
    _read_ptr rb' = _read_ptr rb ∧
    (full rb' = true ↔ size rb + span_size buffer = Capacity).
Proof.
  intros Hwf Hcap Hfit Hsome.
  destruct (push_buffer_appends buffer rb Hwf Hcap Hfit Hsome)
    as (rb' & Hpush & Hwf' & _ & Hrd & Hsize & Hq).
  exists rb'. split_and!; try done.
  rewrite <- Hsize. apply full_iff_size. by apply wf_in_range.
Qed.

(** X4: a request for [n] stored elements that reaches the physical end
    of the storage ([n >= Capacity - _read_ptr]) is served exactly: the
    first [n] positions of the destination receive the [n] oldest elements
    in order, the rest of the destination is untouched, and the queue loses
    its first [n] elements. *)
Theorem pop_buffer_dequeues (out : list T) (n : Z) (rb : RB) :
  wf rb → 2 * Capacity ≤ SIZE_MOD →
  0 ≤ n ≤ size rb → n ≤ span_size out → Capacity - _read_ptr rb ≤ n →
  ∃ rb',
    pop_buffer Capacity out n rb
    = Some (Value (), rb',
            take (Z.to_nat n) (contents rb) ++ drop (Z.to_nat n) out) ∧
    wf rb' ∧
    contents rb' = drop (Z.to_nat n) (contents rb) ∧
    size rb' = size rb - n ∧
    _buffer rb' = _buffer rb ∧ _write_ptr rb' = _write_ptr rb.
Proof.
  intros Hwf Hcap Hn Hout Hend. exists (popped_n n rb).
  assert (0 < n) as Hpos by (destruct Hwf as (_ & _ & ? & _); lia).
  destruct (contents_popped_n n rb Hwf Hn (or_introl Hpos)) as [Hsize Hq].
  split_and!; auto using pop_buffer_to_the_end, wf_popped_n.
Qed.

(** X5: a request for [n] stored elements that stops short of the
    physical end of the storage ([n < Capacity - _read_ptr]) copies
    [Capacity - _read_ptr] elements whatever [n] is: with that much room in
    the caller's object its first [Capacity - _read_ptr] elements become the
    storage from the read cursor to the physical end; with less room the
    call is undefined.  The read cursor still advances by [n] only. *)
Theorem pop_buffer_short_copies_to_the_end (out : list T) (n : Z) (rb : RB) :
  wf rb → 0 ≤ n ≤ size rb → n < Capacity - _read_ptr rb →
  (Capacity - _read_ptr rb ≤ span_size out →
   pop_buffer Capacity out n rb
   = Some (Value (), popped_n n rb,
           drop (Z.to_nat (_read_ptr rb)) (_buffer rb)
             ++ drop (Z.to_nat (Capacity - _read_ptr rb)) out)) ∧
  (span_size out < Capacity - _read_ptr rb →
   pop_buffer Capacity out n rb = None).
Proof.
  intros Hwf Hn Hshort.
  rewrite (pop_buffer_short_of_the_end out n rb Hwf Hn Hshort).
  split; intros Hroom.
  - by destruct (Z.leb_spec (Capacity - _read_ptr rb) (span_size out)); [|lia].
  - by destruct (Z.leb_spec (Capacity - _read_ptr rb) (span_size out)); [lia|].
Qed.

(** X6: round trip of a batch through an empty buffer.  A non-empty batch
    of at most [Capacity] elements that reaches the physical end of the
    storage from the cursors (a batch of [Capacity] elements always does),
    pushed with [push_buffer] and read back with [pop_buffer] into a span
    of the same length, comes back unchanged, and the buffer is empty
    again. *)
Theorem batch_round_trip (buffer out : list T) (rb : RB) :
  wf rb → 2 * Capacity ≤ SIZE_MOD → empty rb = true →
  buffer ≠ [] → span_size buffer ≤ Capacity →
  Capacity - _read_ptr rb ≤ span_size buffer →
  span_size buffer ≤ span_size out →
  ∃ rb1 rb2,
    push_buffer Capacity buffer rb = Some (Value (), rb1) ∧
    pop_buffer Capacity out (span_size buffer) rb1
    = Some (Value (), rb2, buffer ++ drop (length buffer) out) ∧
    wf rb2 ∧ empty rb2 = true.
Proof.
  intros Hwf Hcap Hempty Hne Hlen Hend Hout.
  pose proof (proj1 (empty_iff_size rb (wf_in_range rb Hwf)) Hempty) as Hsize.
  pose proof (free_is_room rb Hwf) as Hfree.
  destruct (push_buffer_appends buffer rb Hwf Hcap ltac:(lia) (or_introl Hne))
    as (rb1 & Hpush & Hwf1 & _ & Hrd & Hsize1 & Hq1).
  rewrite (contents_empty rb Hwf Hempty) in Hq1. simpl in Hq1.
  assert (0 < span_size buffer) as Hpos.
  { destruct buffer; [done|]. unfold span_size. simpl. lia. }
  assert (0 ≤ span_size buffer ≤ size rb1) as Hn by lia.
  destruct (contents_popped_n _ rb1 Hwf1 Hn (or_introl Hpos)) as [Hsize2 Hq2].
  exists rb1, (popped_n (span_size buffer) rb1).
  split; [done|]. split; [|split].
  - rewrite (pop_buffer_to_the_end out _ rb1 Hwf1 Hcap Hn Hout)
      by (rewrite Hrd; done).
    rewrite Hq1. unfold span_size. rewrite Nat2Z.id, take_ge by lia. done.
  - by apply wf_popped_n.
  - apply empty_iff_size; [by apply wf_in_range, wf_popped_n|]. lia.
Qed.

(** X7: [clear] makes any buffer over [Capacity] slots well formed and
    empty, whatever state it was in, without touching the storage:
    afterwards [size()] is 0, [free()] is [Capacity], the queue is empty and
    [pop] reports [Empty]. *)
Theorem clear_empties (rb : RB) :
  span_size (_buffer rb) = Capacity →
  wf (clear rb) ∧ _buffer (clear rb) = _buffer rb ∧
  empty (clear rb) = true ∧ full (clear rb) = false ∧
  size (clear rb) = 0 ∧ free (clear rb) = Capacity ∧
  contents (clear rb) = [] ∧
  pop Capacity (clear rb) = Some (Unexpected Empty, clear rb).
Proof.
  intros Hlen.
  assert (wf (clear rb)) as Hwf.
  { unfold wf, cursors_ok, clear; simpl. split_and!; (lia || done). }
  assert (size (clear rb) = 0) as Hsize.
  { rewrite size_in_range by (simpl; lia). done. }
  split_and!; try done.
  rewrite free_is_room by done. lia.
Qed.

(** X8: [pop_unchecked] on an empty buffer returns whatever the storage
    holds at the read cursor and moves the read cursor past the write
    cursor: the buffer then reports [Capacity - 1] stored elements. *)
Theorem pop_unchecked_on_empty (rb : RB) :
  wf rb → empty rb = true →
  ∃ x rb',
    pop_unchecked Capacity rb = Some (x, rb') ∧
    load (_buffer rb) (_read_ptr rb) = Some x ∧
    wf rb' ∧ size rb' = Capacity - 1.
Proof.
  intros Hwf Hempty. destruct (pop_unchecked_wf rb Hwf) as (x & Hx & Hpop).
  exists x, (popped rb). pose proof (wf_popped rb Hwf) as Hwf'.
  destruct Hwf as (Hlen & Hw & Hr & _). unfold span_size in Hlen.
  unfold empty in Hempty. apply andb_prop in Hempty as [Heq Hnf].
  apply Z.eqb_eq in Heq.
  split_and!; try done.
  - unfold load, span_size.
    destruct (Z.leb_spec 0 (_read_ptr rb)); [simpl|lia].
    by destruct (Z.ltb_spec (_read_ptr rb) (Z.of_nat (length (_buffer rb))));
      [|lia].
  - rewrite size_in_range by apply Hwf'. simpl.
    rewrite mod_lap by lia. repeat case_match; lia.
Qed.

(** X9: [push_unchecked] on a full buffer overwrites the oldest element
    and leaves the flag set; the next [pop] returns the value just written
    and after it the buffer reports empty, so every element that was stored
    is lost. *)
Theorem push_unchecked_on_full (v : T) (rb : RB) :
  wf rb → full rb = true →
  ∃ rb1 rb2,
    push_unchecked Capacity v rb = Some rb1 ∧
    size rb1 = Capacity ∧
    pop Capacity rb1 = Some (Value v, rb2) ∧
    empty rb2 = true ∧ size rb2 = 0.
Proof.
  intros Hwf Hfull. unfold full in Hfull.
  rewrite (push_unchecked_wf v rb Hwf).
  destruct (Hwf) as (Hlen & Hw & Hr & Hf). specialize (Hf Hfull).
  unfold span_size in Hlen.
  pose proof (Z.mod_pos_bound (_write_ptr rb + 1) Capacity Capacity_pos) as Hwp.
  set (rb1 := pushed v rb).
  assert (_is_full rb1 = true) as Hfull1.
  { unfold rb1, pushed, mark_full. simpl. rewrite Hfull. by case_match. }
  assert (pop Capacity rb1
          = Some (Value v,
                  mkRingBuffer (_buffer rb1) (_write_ptr rb1)
                    ((_read_ptr rb + 1) mod Capacity) false)) as Hpop.
  { unfold pop, empty. rewrite Hfull1, andb_false_r.
    unfold load, span_size. simpl. rewrite length_insert, <- Hf.
    destruct (Z.leb_spec 0 (_write_ptr rb)); [simpl|lia].
    destruct (Z.ltb_spec (_write_ptr rb) (Z.of_nat (length (_buffer rb))));
      [simpl|lia].
    rewrite list_lookup_insert_eq by lia. simpl.
    rewrite uadd_small, umod_Some by lia. done. }
  eexists rb1, _. split; [done|]. split; [|split; [exact Hpop|]].
  - unfold size. by rewrite Hfull1.
  - assert (empty (mkRingBuffer (_buffer rb1) (_write_ptr rb1)
                     ((_read_ptr rb + 1) mod Capacity) false) = true)
      as Hempty.
    { unfold empty. simpl. by rewrite Hf, Z.eqb_refl. }
    split; [done|]. apply empty_iff_size; [|done].
    unfold in_range, span_size. simpl. rewrite length_insert.
    rewrite Hf in Hwp |- *. split_and!; lia.
Qed.

(** X10: [pop_buffer] with a span of length zero on a full buffer reports
    success and clears the flag while the cursors still coincide: the
    buffer is empty afterwards although nothing was requested.  (The copy of
    X5 takes place as well, which is why the caller's object needs
    [Capacity - _read_ptr] elements.) *)
Theorem pop_buffer_nothing_empties (out : list T) (rb : RB) :
  wf rb → full rb = true → Capacity - _read_ptr rb ≤ span_size out →
  ∃ rb' out',
    pop_buffer Capacity out 0 rb = Some (Value (), rb', out') ∧
    _write_ptr rb' = _write_ptr rb ∧ _read_ptr rb' = _read_ptr rb ∧
    empty rb' = true ∧ size rb' = 0 ∧ contents rb' = [].
Proof.
  intros Hwf Hfull Hroom. unfold full in Hfull.
  destruct (Hwf) as (Hlen & Hw & Hr & Hf). specialize (Hf Hfull).
  pose proof (size_bounds rb Hw Hr) as Hsz.
  rewrite (pop_buffer_short_of_the_end out 0 rb Hwf) by lia.
  destruct (Z.leb_spec (Capacity - _read_ptr rb) (span_size out)); [|lia].
  pose proof (wf_popped_n 0 rb Hwf) as Hwf'.
  assert (_read_ptr (popped_n 0 rb) = _read_ptr rb) as Hrd.
  { simpl. rewrite Z.add_0_r. apply Z.mod_small. lia. }
  assert (empty (popped_n 0 rb) = true) as Hempty.
  { unfold empty. rewrite Hrd. simpl. by rewrite Hf, Z.eqb_refl. }
  eexists _, _. split; [done|]. split_and!; try done.
  - by apply empty_iff_size; [apply wf_in_range|].
  - by apply contents_empty.
Qed.

End RingBufferInvariant.

(** ** Iterator arithmetic *)

Section IteratorArithmetic.
Context {T : Type}.

Abbreviation It := (Iterator T).

Lemma sdiv_nonneg p N :
  0 < N → 0 ≤ p ≤ SSIZE_MAX → sdiv p N = Some (p / N, p mod N).
Proof.
  intros HN Hp. unfold sdiv. destruct (Z.eqb_spec N 0); [lia|].
  rewrite Z.quot_div_nonneg, Z.rem_mod_nonneg by lia.
  assert (0 ≤ p / N ≤ p) as Hq.
  { split; [apply Z.div_pos; lia|]. apply Z.div_le_upper_bound; nia. }
  unfold in_ssize, SSIZE_MIN, SSIZE_MAX in *.
  destruct (Z.leb_spec (- 2 ^ 63) (p / N)), (Z.leb_spec (p / N) (2 ^ 63 - 1));
    simpl; (done || lia).
Qed.

(** A raw index that is not negative is reduced as the data model asks. *)
Lemma wrap_forward N p c :
  0 < N → 0 ≤ p ≤ SSIZE_MAX →
  SSIZE_MIN ≤ c → c + p / N ≤ SSIZE_MAX →
  wrap N (p, c) = Some (p mod N, c + p / N).
Proof.
  intros HN Hp Hc Hc'. unfold wrap, wrap_upper.
  assert (0 ≤ p / N) by (apply Z.div_pos; lia).
  pose proof (Z.mod_pos_bound p N HN).
  destruct (Z.leb_spec N p); simpl.
  - rewrite sdiv_nonneg by done. simpl.
    unfold sadd. rewrite checked_Some by lia. simpl.
    destruct (Z.ltb_spec (p mod N) 0); [lia|done].
  - destruct (Z.ltb_spec p 0); [lia|].
    rewrite Z.mod_small, Z.div_small, Z.add_0_r by lia. done.
Qed.

(** A negative raw index: the cycle moves by the truncated quotient only,
    and [data_size] is added to the remainder unconditionally. *)
Lemma wrap_backward N p c :
  0 < N ≤ SSIZE_MAX → SSIZE_MIN ≤ p < 0 →
  SSIZE_MIN ≤ c + Z.quot p N → c ≤ SSIZE_MAX →
  wrap N (p, c) = Some (N + Z.rem p N, c + Z.quot p N).
Proof.
  intros HN Hp Hc Hc'. unfold wrap, wrap_upper.
  destruct (Z.leb_spec N p); [lia|]. simpl.
  destruct (Z.ltb_spec p 0); [|lia].
  assert (p ≤ Z.quot p N ≤ 0 ∧ - N < Z.rem p N ≤ 0) as [Hq Hr].
  { pose proof (Z.quot_rem' p N) as Hqr.
    pose proof (Z.rem_bound_pos_neg p N ltac:(lia) ltac:(lia)).
    split; [nia|lia]. }
  unfold sdiv. destruct (Z.eqb_spec N 0); [lia|].
  unfold in_ssize. unfold SSIZE_MIN, SSIZE_MAX in *.
  destruct (Z.leb_spec (- 2 ^ 63) (Z.quot p N)),
    (Z.leb_spec (Z.quot p N) (2 ^ 63 - 1)); simpl; try lia.
  unfold sadd. rewrite !checked_Some by int_lia.
  done.
Qed.

Lemma to_ssize_index N (it : It) :
  in_bounds N it →
  to_ssize (ptr it) = ptr it ∧ to_ssize (span_size (data it)) = N ∧ 0 < N.
Proof.
  intros (Hlen & HN & Hp). rewrite Hlen, !to_ssize_small by lia. lia.
Qed.

Lemma in_ssize_true z : SSIZE_MIN ≤ z ≤ SSIZE_MAX → in_ssize z = true.
Proof.
  intros Hz. unfold in_ssize.
  destruct (Z.leb_spec SSIZE_MIN z), (Z.leb_spec z SSIZE_MAX); (done || lia).
Qed.

(** Offsets that keep the raw index non-negative: binary [+] is exact. *)
Lemma add_forward N (it : It) d :
  in_bounds N it →
  0 ≤ ptr it + d ≤ SSIZE_MAX →
  SSIZE_MIN ≤ cycle it → cycle it + (ptr it + d) / N ≤ SSIZE_MAX →
  add it d =
    Some (mkIterator (data it) ((ptr it + d) mod N)
            (cycle it + (ptr it + d) / N)).
Proof.
  intros Hit Hraw Hc Hc'.
  destruct (to_ssize_index N it Hit) as (Hp & Hsize & HN).
  destruct Hit as (Hlen & HN' & Hptr).
  assert (0 ≤ (ptr it + d) / N) by (apply Z.div_pos; lia).
  pose proof (Z.mod_pos_bound (ptr it + d) N HN).
  unfold add. rewrite Hp, Hsize. unfold sadd at 1.
  rewrite checked_Some by int_lia. simpl.
  rewrite wrap_forward by done. simpl.
  unfold Iterator_ctor. rewrite to_ssize_to_size by (apply in_ssize_true; lia).
  rewrite to_size_small by int_lia. done.
Qed.

Lemma add_assign_forward N (it : It) d :
  in_bounds N it →
  0 ≤ ptr it + d ≤ SSIZE_MAX →
  SSIZE_MIN ≤ cycle it → cycle it + (ptr it + d) / N ≤ SSIZE_MAX →
  add_assign d it =
    Some (mkIterator (data it) ((ptr it + d) mod N)
            (cycle it + (ptr it + d) / N)).
Proof.
  intros Hit Hraw Hc Hc'.
  destruct (to_ssize_index N it Hit) as (Hp & Hsize & HN).
  destruct Hit as (Hlen & HN' & Hptr).
  pose proof (Z.mod_pos_bound (ptr it + d) N HN).
  unfold add_assign. rewrite Hp, Hsize. unfold sadd at 1.
  rewrite checked_Some by int_lia. simpl.
  rewrite wrap_forward by done. simpl.
  rewrite to_size_small by int_lia. done.
Qed.

(** Offsets that take the raw index below zero: the result sits one lap
    ahead of the requested position, and at index [N] itself when the raw
    index is a multiple of [N]. *)
Lemma add_assign_backward N (it : It) d :
  in_bounds N it →
  SSIZE_MIN ≤ ptr it + d < 0 →
  SSIZE_MIN ≤ cycle it + Z.quot (ptr it + d) N → cycle it ≤ SSIZE_MAX →
  ∃ it', add_assign d it = Some it' ∧
         0 < ptr it' ≤ N ∧
         position it' = position it + d + N.
Proof.
  intros Hit Hraw Hc Hc'.
  destruct (to_ssize_index N it Hit) as (Hp & Hsize & HN).
  destruct Hit as (Hlen & HN' & Hptr).
  pose proof (Z.quot_rem' (ptr it + d) N) as Hqr.
  pose proof (Z.rem_bound_pos_neg (ptr it + d) N ltac:(lia) ltac:(lia)).
  unfold add_assign. rewrite Hp, Hsize. unfold sadd at 1.
  rewrite checked_Some by int_lia. simpl.
  rewrite wrap_backward by (done || lia). simpl.
  eexists. split; [done|]. unfold position. simpl.
  rewrite to_size_small by int_lia.
  rewrite Hlen. split; [lia|]. nia.
Qed.

(** [operator++] moves one position forward and keeps the index in
    bounds. *)
Lemma pre_inc_position N (it : It) :
  in_bounds N it → SSIZE_MIN ≤ cycle it < SSIZE_MAX →
  ∃ it', pre_inc it = Some it' ∧ in_bounds N it' ∧
         position it' = position it + 1 ∧
         cycle it ≤ cycle it' ≤ cycle it + 1.
Proof.
  intros (Hlen & HN & Hp) Hc. unfold pre_inc, in_bounds, position.
  rewrite Hlen, usub_small by int_lia.
  destruct (Z.leb_spec (N - 1) (ptr it)).
  - unfold sadd. rewrite checked_Some by lia. simpl.
    eexists. split; [done|]. simpl. rewrite Hlen.
    split_and!; try lia.
  - eexists. split; [done|]. simpl.
    rewrite Hlen, uadd_small by int_lia.
    split_and!; try lia.
Qed.

Lemma times_pre_inc_position N (n : nat) : ∀ it : It,
  in_bounds N it →
  SSIZE_MIN ≤ cycle it → cycle it + Z.of_nat n ≤ SSIZE_MAX →
  ∃ it', times n pre_inc it = Some it' ∧ in_bounds N it' ∧
         position it' = position it + Z.of_nat n ∧
         cycle it ≤ cycle it' ≤ cycle it + Z.of_nat n.
Proof.
  induction n as [|n IH]; intros it Hit Hc Hc'.
  - exists it. simpl. split_and!; (done || lia).
  - destruct (pre_inc_position N it Hit ltac:(lia))
      as (it1 & Hinc & Hit1 & Hpos1 & Hc1).
    destruct (IH it1 Hit1 ltac:(lia) ltac:(lia))
      as (it' & Htimes & Hit' & Hpos' & Hcyc').
    exists it'. simpl. rewrite Hinc. simpl.
    split_and!; (done || lia).
Qed.

(** [Sentinel - Iterator] is the difference of the logical positions, when
    every intermediate value is representable. *)
Lemma sentinel_sub_position N (s : Sentinel) (it : It) :
  in_bounds N it → 0 ≤ sentinel_ptr s ≤ SSIZE_MAX →
  SSIZE_MIN ≤ sentinel_cycle s * N ≤ SSIZE_MAX →
  SSIZE_MIN ≤ sentinel_ptr s + sentinel_cycle s * N ≤ SSIZE_MAX →
  SSIZE_MIN ≤ cycle it * N ≤ SSIZE_MAX →
  SSIZE_MIN ≤ ptr it + cycle it * N ≤ SSIZE_MAX →
  SSIZE_MIN ≤ sentinel_ptr s + sentinel_cycle s * N - position it ≤ SSIZE_MAX →
  sentinel_sub s it
  = Some (sentinel_ptr s + sentinel_cycle s * N - position it).
Proof.
  intros Hit Hsp H1 H2 H3 H4 H5.
  destruct (to_ssize_index N it Hit) as (Hp & Hsize & HN).
  destruct Hit as (Hlen & _ & _).
  unfold sentinel_sub, smul, sadd, ssub.
  rewrite Hp, Hsize, (to_ssize_small (sentinel_ptr s)) by done.
  unfold position in *. rewrite Hlen in *.
  rewrite (checked_Some (sentinel_cycle s * N)) by done. simpl.
  rewrite (checked_Some (sentinel_ptr s + _)) by done. simpl.
  rewrite (checked_Some (cycle it * N)) by done. simpl.
  rewrite (checked_Some (ptr it + _)) by done. simpl.
  by rewrite checked_Some.
Qed.

End IteratorArithmetic.

(** ** Positions over a full buffer of 64 elements *)

Lemma full_slots (rb : RingBuffer Z) (j : Z) :
  wf 64 rb → full rb = true → contents 64 rb = seqZ 0 64 → 0 ≤ j < 64 →
  load (_buffer rb) ((_read_ptr rb + j) mod 64) = Some j.
Proof.
  intros Hwf Hfull Hq Hj.
  assert (size 64 rb = 64) as Hsize
    by (unfold size, full in *; by rewrite Hfull).
  pose proof (lookup_contents 64 ltac:(lia) ltac:(done) rb (Z.to_nat j) Hwf
                ltac:(lia)) as Hslot.
  rewrite Hq, lookup_seqZ_lt, Z2Nat.id in Hslot by lia.
  destruct Hwf as (Hlen & _ & Hr & _).
  pose proof (Z.mod_pos_bound (_read_ptr rb + j) 64 ltac:(lia)).
  unfold load. rewrite Hlen.
  destruct (Z.leb_spec 0 ((_read_ptr rb + j) mod 64)); [simpl|lia].
  destruct (Z.ltb_spec ((_read_ptr rb + j) mod 64) 64); [simpl|lia].
  rewrite <- Hslot. done.
Qed.

(** C8: in a full buffer of capacity 64 that holds 0..63 in FIFO order,
    wherever its read cursor stands, for every [k] in [[0, 64)]:
    [begin()[k] == k]; [begin() + k] dereferences to [k];
    [begin() + 64 == end()]; [end() - begin() == 64]; and 64 pre-increments
    of [begin()] give an iterator equal to [end()]. *)
Theorem full_buffer_positions (rb : RingBuffer Z) (k : Z) :
  wf 64 rb → full rb = true → contents 64 rb = seqZ 0 64 → 0 ≤ k < 64 →
  index (begin rb) k = Some k ∧
  add (begin rb) k ≫= deref = Some k ∧
  (∃ it, add (begin rb) 64 = Some it ∧ eq_sentinel it (end_ rb) = true) ∧
  sentinel_sub (end_ rb) (begin rb) = Some 64 ∧
  (∃ it, times 64 pre_inc (begin rb) = Some it ∧
         eq_sentinel it (end_ rb) = true).
Proof.
  intros Hwf Hfull Hq Hk.
  pose proof (λ j, full_slots rb j Hwf Hfull Hq) as Hslot.
  destruct (Hwf) as (Hlen & _ & Hr & Hf). specialize (Hf Hfull).
  assert (in_bounds 64 (begin rb)) as Hbegin by done.
  assert (end_ rb = mkSentinel (_read_ptr rb) 1) as Hend.
  { unfold end_. rewrite Hfull, orb_true_r, Hf. done. }
  assert (cycle (begin rb) = 0) as Hcycle by done.
  assert (ptr (begin rb) = _read_ptr rb) as Hptr by done.
  assert (0 ≤ (_read_ptr rb + k) / 64 < 2) as Hlap.
  { split; [apply Z.div_pos; lia|]. apply Z.div_lt_upper_bound; lia. }
  assert ((_read_ptr rb + 64) / 64 = 1 ∧
          (_read_ptr rb + 64) mod 64 = _read_ptr rb) as [Hdiv Hmod].
  { split; [symmetry; apply Z.div_unique with (r := _read_ptr rb); lia|].
    rewrite mod_lap by lia. case_match; lia. }
  rewrite Hend. split_and!.
  - unfold index. rewrite Hptr.
    change (span_size (data (begin rb))) with (span_size (_buffer rb)).
    rewrite Hlen.
    rewrite uadd_small, umod_Some by int_lia. simpl.
    by apply Hslot.
  - rewrite (add_forward 64) by (rewrite ?Hcycle, ?Hptr; done || int_lia).
    simpl. unfold deref. simpl. by apply Hslot.
  - rewrite (add_forward 64)
      by (rewrite ?Hcycle, ?Hptr, ?Hdiv; done || int_lia).
    eexists. split; [done|]. unfold eq_sentinel. simpl.
    rewrite Hdiv, Hmod, !Z.eqb_refl. done.
  - rewrite (sentinel_sub_position 64);
      unfold position; rewrite ?Hcycle, ?Hptr; simpl; try (done || int_lia).
    change (span_size (data (begin rb))) with (span_size (_buffer rb)).
    f_equal. lia.
  - destruct (times_pre_inc_position 64 64 (begin rb) Hbegin)
      as (it & Htimes & (Hlen' & _ & Hp') & Hpos & Hc).
    { rewrite Hcycle. int_lia. }
    { rewrite Hcycle. int_lia. }
    exists it. split; [done|]. unfold position in Hpos.
    rewrite Hlen', Hcycle, Hptr in Hpos.
    change (span_size (data (begin rb))) with (span_size (_buffer rb)) in Hpos.
    rewrite Hlen in Hpos. unfold eq_sentinel. simpl.
    replace (cycle it) with 1 by lia.
    replace (ptr it) with (_read_ptr rb) by lia.
    by rewrite !Z.eqb_refl.
Qed.

(** ** Iterators among themselves *)

Section IteratorLaws.
Context {T : Type}.

Abbreviation It := (Iterator T).

(** An in-bounds iterator is determined by its storage and its logical
    position. *)
Lemma position_unique N (it1 it2 : It) :
  in_bounds N it1 → in_bounds N it2 → position it1 = position it2 →
  ptr it1 = ptr it2 ∧ cycle it1 = cycle it2.
Proof.
  intros (Hlen1 & _ & Hp1) (Hlen2 & _ & Hp2). unfold position.
  rewrite Hlen1, Hlen2. intros Hpos.
  assert (cycle it1 = cycle it2) by nia. split; [nia|done].
Qed.

Lemma iterator_eq N (it1 it2 : It) :
  in_bounds N it1 → in_bounds N it2 → data it1 = data it2 →
  position it1 = position it2 → it1 = it2.
Proof.
  intros H1 H2 Hdata Hpos.
  destruct (position_unique N it1 it2 H1 H2 Hpos) as [Hptr Hcycle].
  destruct it1, it2. simpl in *. congruence.
Qed.

Lemma pre_inc_data (it it' : It) : pre_inc it = Some it' → data it' = data it.
Proof.
  unfold pre_inc. case_match.
  - intros Hbind. apply bind_Some in Hbind as (c & _ & [= <-]). done.
  - by intros [= <-].
Qed.

Lemma pre_dec_data (it it' : It) : pre_dec it = Some it' → data it' = data it.
Proof.
  unfold pre_dec. case_match.
  - intros Hbind. apply bind_Some in Hbind as (c & _ & [= <-]). done.
  - by intros [= <-].
Qed.

Lemma times_data (f : It → option It) (n : nat) :
  (∀ it it', f it = Some it' → data it' = data it) →
  ∀ it it', times n f it = Some it' → data it' = data it.
Proof.
  intros Hf. induction n as [|n IH]; intros it it'; simpl.
  - by intros [= <-].
  - intros H. apply bind_Some in H as (it1 & H1 & Hn).
    rewrite (IH _ _ Hn). eauto.
Qed.

(** [operator--] moves one position back and keeps the index in bounds. *)
Lemma pre_dec_position N (it : It) :
  in_bounds N it → SSIZE_MIN < cycle it ≤ SSIZE_MAX →
  ∃ it', pre_dec it = Some it' ∧ in_bounds N it' ∧
         position it' = position it - 1 ∧
         cycle it - 1 ≤ cycle it' ≤ cycle it.
Proof.
  intros (Hlen & HN & Hp) Hc. unfold pre_dec, in_bounds, position.
  rewrite Hlen. destruct (Z.eqb_spec (ptr it) 0) as [H0|H0].
  - unfold ssub. rewrite checked_Some by lia. simpl.
    eexists. split; [done|]. simpl.
    rewrite Hlen, usub_small by int_lia. split_and!; lia.
  - eexists. split; [done|]. simpl.
    rewrite Hlen, usub_small by int_lia. split_and!; lia.
Qed.

Lemma times_pre_dec_position N (n : nat) : ∀ it : It,
  in_bounds N it →
  SSIZE_MIN ≤ cycle it - Z.of_nat n → cycle it ≤ SSIZE_MAX →
  ∃ it', times n pre_dec it = Some it' ∧ in_bounds N it' ∧
         position it' = position it - Z.of_nat n ∧
         cycle it - Z.of_nat n ≤ cycle it' ≤ cycle it.
Proof.
  induction n as [|n IH]; intros it Hit Hc Hc'.
  - exists it. simpl. split_and!; (done || lia).
  - destruct (pre_dec_position N it Hit ltac:(lia))
      as (it1 & Hdec & Hit1 & Hpos1 & Hc1).
    destruct (IH it1 Hit1 ltac:(lia) ltac:(lia))
      as (it' & Htimes & Hit' & Hpos' & Hcyc').
    exists it'. simpl. rewrite Hdec. simpl.
    split_and!; (done || lia).
Qed.

(** X11: [++] and [--] undo each other on every iterator whose index is in
    bounds (and whose cycle counter would not overflow). *)
Theorem increment_decrement_inverse N (it : It) :
  in_bounds N it → SSIZE_MIN < cycle it < SSIZE_MAX →
  pre_inc it ≫= pre_dec = Some it ∧ pre_dec it ≫= pre_inc = Some it.
Proof.
  intros Hit Hc. split.
  - destruct (pre_inc_position N it Hit ltac:(lia))
      as (it1 & Hinc & Hit1 & Hpos1 & Hc1).
    destruct (pre_dec_position N it1 Hit1 ltac:(lia))
      as (it2 & Hdec & Hit2 & Hpos2 & _).
    rewrite Hinc. simpl. rewrite Hdec. f_equal.
    apply (iterator_eq N); [done..| |lia].
    rewrite (pre_dec_data _ _ Hdec). by apply pre_inc_data.
  - destruct (pre_dec_position N it Hit ltac:(lia))
      as (it1 & Hdec & Hit1 & Hpos1 & Hc1).
    destruct (pre_inc_position N it1 Hit1 ltac:(lia))
      as (it2 & Hinc & Hit2 & Hpos2 & _).
    rewrite Hdec. simpl. rewrite Hinc. f_equal.
    apply (iterator_eq N); [done..| |lia].
    rewrite (pre_inc_data _ _ Hinc). by apply pre_dec_data.
Qed.

(** X12: advancing by a non-negative offset [n] in one step is the same
    as [n] increments. *)
Theorem add_assign_is_repeated_increment N (n : nat) (it : It) :
  in_bounds N it →
  ptr it + Z.of_nat n ≤ SSIZE_MAX →
  SSIZE_MIN ≤ cycle it → cycle it + Z.of_nat n ≤ SSIZE_MAX →
  add_assign (Z.of_nat n) it = times n pre_inc it.
Proof.
  intros Hit Hraw Hc Hc'.
  destruct (times_pre_inc_position N n it Hit Hc Hc')
    as (it' & Htimes & Hit' & Hpos & _).
  pose proof (times_data pre_inc n pre_inc_data _ _ Htimes) as Hdata.
  destruct (Hit) as (Hlen & HN & Hp).
  assert (0 < N) as HNpos by lia.
  assert (0 ≤ (ptr it + Z.of_nat n) / N ≤ Z.of_nat n) as Hq.
  { destruct (Z.eq_dec (Z.of_nat n) 0) as [H0|H0].
    - rewrite H0, Z.add_0_r, Z.div_small by lia. lia.
    - split; [apply Z.div_pos; lia|].
      apply Z.div_le_upper_bound; [lia|]. nia. }
  pose proof (Z.mod_pos_bound (ptr it + Z.of_nat n) N HNpos) as Hr.
  pose proof (Z.div_mod (ptr it + Z.of_nat n) N ltac:(lia)) as Hdm.
  rewrite (add_assign_forward N) by (done || lia).
  rewrite Htimes. f_equal. apply (iterator_eq N); try done.
  rewrite Hpos. unfold position. simpl. rewrite Hlen. nia.
Qed.

Lemma compare_position N (it other : It) :
  in_bounds N it → in_bounds N other →
  compare it other = (position it ?= position other).
Proof.
  intros (Hlen1 & _ & Hp1) (Hlen2 & _ & Hp2). unfold compare, position.
  rewrite Hlen1, Hlen2. symmetry.
  destruct (Z.eqb_spec (cycle it) (cycle other)) as [->|Hne].
  - rewrite !(Z.add_comm _ (cycle other * N)). apply Z.add_compare_mono_l.
  - destruct (Z.compare_spec (cycle it) (cycle other)) as [?|Hlt|Hgt];
      [done| |].
    + apply Z.compare_lt_iff. nia.
    + apply Z.compare_gt_iff. nia.
Qed.

Lemma eq_iterator_position N (it other : It) :
  in_bounds N it → in_bounds N other →
  eq_iterator it other = (position it =? position other).
Proof.
  intros Hit Hother. unfold eq_iterator.
  destruct (Z.eqb_spec (position it) (position other)) as [Heq|Hne].
  - destruct (position_unique N it other Hit Hother Heq) as [-> ->].
    by rewrite !Z.eqb_refl.
  - destruct (Z.eqb_spec (cycle it) (cycle other)) as [Hc|]; [simpl|done].
    destruct (Z.eqb_spec (ptr it) (ptr other)) as [Hp|]; [|done].
    destruct Hit as (Hlen1 & _), Hother as (Hlen2 & _).
    unfold position in Hne. rewrite Hlen1, Hlen2, Hc, Hp in Hne. done.
Qed.

(** X13: for two iterators whose indices are in bounds of storage of the
    same extent, [operator<=>] orders by logical position and [operator==]
    holds exactly when the positions are equal. *)
Theorem order_and_equality_by_position N (it other : It) :
  in_bounds N it → in_bounds N other →
  compare it other = (position it ?= position other) ∧
  eq_iterator it other = (position it =? position other).
Proof.
  intros Hit Hother.
  split; [by apply (compare_position N)|by apply (eq_iterator_position N)].
Qed.



(** X21: an offset that keeps the raw index [ptr + d] non-negative,
    whatever the sign of [d], is exact: the index stays in bounds, the
    storage is the same and the logical position moves by [d]. *)
Theorem offset_above_zero_is_exact N (it : It) (d : Z) :
  in_bounds N it →
  0 ≤ ptr it + d ≤ SSIZE_MAX →
  SSIZE_MIN ≤ cycle it → cycle it + (ptr it + d) / N ≤ SSIZE_MAX →
  ∃ it',
    add_assign d it = Some it' ∧ data it' = data it ∧
    in_bounds N it' ∧ position it' = position it + d.
Proof.
  intros Hit Hraw Hc Hc'. destruct (Hit) as (Hlen & HN & Hp).
  pose proof (Z.mod_pos_bound (ptr it + d) N ltac:(lia)) as Hr.
  pose proof (Z.div_mod (ptr it + d) N ltac:(lia)) as Hdm.
  rewrite (add_assign_forward N) by done.
  eexists. split; [done|]. unfold in_bounds, position. simpl.
  rewrite Hlen. split_and!; (done || nia).
Qed.


(** X15: an offset that takes the raw index below zero lands one lap ahead
    of the same number of decrements: after [it -= n] with [n] greater than
    the index, the position is [N] more than after [n] applications of
    [--], and the index lies in [(0, N]] instead of [[0, N)]. *)
Theorem sub_assign_lands_a_lap_ahead N (n : nat) (it : It) :
  in_bounds N it → ptr it < Z.of_nat n → Z.of_nat n ≤ SSIZE_MAX →
  SSIZE_MIN ≤ cycle it - Z.of_nat n → cycle it ≤ SSIZE_MAX →
  ∃ a b,
    sub_assign (Z.of_nat n) it = Some a ∧
    times n pre_dec it = Some b ∧
    position b = position it - Z.of_nat n ∧ 0 ≤ ptr b < N ∧
    position a = position b + N ∧ 0 < ptr a ≤ N.
Proof.
  intros Hit Hcross Hn Hc Hc'.
  destruct (times_pre_dec_position N n it Hit Hc Hc')
    as (b & Htimes & (_ & _ & Hpb) & Hposb & _).
  destruct (Hit) as (Hlen & HN & Hp).
  assert (- Z.of_nat n ≤ Z.quot (ptr it - Z.of_nat n) N ≤ 0) as Hq.
  { pose proof (Z.quot_rem' (ptr it - Z.of_nat n) N) as Hqr.
    pose proof (Z.rem_bound_pos_neg (ptr it - Z.of_nat n) N ltac:(lia)
                  ltac:(lia)).
    nia. }
  destruct (add_assign_backward N it (- Z.of_nat n) Hit)
    as (a & Hadd & Hpa & Hposa).
  { unfold SSIZE_MIN, SSIZE_MAX in *. lia. }
  { rewrite Z.add_opp_r. lia. }
  { done. }
  exists a, b. split_and!; (done || lia).
Qed.

End IteratorLaws.

(** ** Iterating over a buffer *)

Section Traversal.
Context {T : Type}.
Variable Capacity : Z.
Hypothesis Capacity_pos : 0 < Capacity.
(** Positions up to two laps are representable in [ssize_t]. *)
Hypothesis Capacity_max : 2 * Capacity ≤ SSIZE_MAX.

Abbreviation RB := (RingBuffer T).
Abbreviation size := (@size T Capacity).
Abbreviation wf := (@wf T Capacity).
Abbreviation contents := (@contents T Capacity).

Lemma Capacity_size_t' : Capacity < SIZE_MOD.
Proof. int_lia. Qed.

Lemma load_lookup (a : list T) (i : Z) :
  0 ≤ i < span_size a → load a i = a !! Z.to_nat i.
Proof.
  intros Hi. unfold load.
  destruct (Z.leb_spec 0 i); [simpl|lia].
  by destruct (Z.ltb_spec i (span_size a)); [|lia].
Qed.

Lemma begin_in_bounds (rb : RB) :
  wf rb →
  in_bounds Capacity (begin rb) ∧ data (begin rb) = _buffer rb ∧
  ptr (begin rb) = _read_ptr rb ∧ cycle (begin rb) = 0 ∧
  position (begin rb) = _read_ptr rb.
Proof.
  intros (Hlen & _ & Hr & _). unfold in_bounds, position. simpl.
  change (to_ssize 0) with 0. split_and!; (done || lia).
Qed.

(** The sentinel stands at the logical position one past the last stored
    element. *)
Lemma end_position (rb : RB) :
  wf rb →
  0 ≤ sentinel_ptr (end_ rb) < Capacity ∧
  0 ≤ sentinel_cycle (end_ rb) ≤ 1 ∧
  sentinel_ptr (end_ rb) + sentinel_cycle (end_ rb) * Capacity
  = _read_ptr rb + size rb.
Proof.
  intros (Hlen & Hw & Hr & Hf).
  rewrite (size_in_range Capacity Capacity_size_t') by done.
  unfold end_, full, Sentinel_ctor.
  change (to_ssize 1) with 1. change (to_ssize 0) with 0.
  destruct (_is_full rb) eqn:Hfull.
  - rewrite orb_true_r. simpl. specialize (Hf eq_refl). lia.
  - rewrite orb_false_r.
    destruct (Z.ltb_spec (_write_ptr rb) (_read_ptr rb));
      destruct (Z.leb_spec (_read_ptr rb) (_write_ptr rb)); simpl; lia.
Qed.

(** The slot an in-bounds iterator at a given position points to. *)
Lemma ptr_of_position (it : Iterator T) :
  in_bounds Capacity it → ptr it = position it mod Capacity.
Proof.
  intros (Hlen & _ & Hp). unfold position. rewrite Hlen.
  by rewrite Z.mod_add, Z.mod_small by lia.
Qed.

(** X16: iterating from [begin()] with [++] visits the stored elements in
    FIFO order and stops at [end()]: after [k < size()] increments the
    iterator dereferences to element [k] of the queue and differs from
    [end()]; after [size()] increments it equals [end()]. *)
Theorem traversal_visits_queue (rb : RB) (k : nat) :
  wf rb → Z.of_nat k ≤ size rb →
  ∃ it,
    times k pre_inc (begin rb) = Some it ∧
    (Z.of_nat k < size rb →
     deref it = contents rb !! k ∧ eq_sentinel it (end_ rb) = false) ∧
    (Z.of_nat k = size rb → eq_sentinel it (end_ rb) = true).
Proof.
  intros Hwf Hk.
  destruct (begin_in_bounds rb Hwf)
    as (Hbegin & Hdata & Hptr & Hcycle & Hpos0).
  destruct (end_position rb Hwf) as (Hsp & Hsc & Hend).
  destruct (Hwf) as (Hlen & Hw & Hr & _).
  pose proof (size_bounds Capacity Capacity_pos Capacity_size_t' rb Hw Hr)
    as Hsz.
  destruct (times_pre_inc_position Capacity k (begin rb) Hbegin)
    as (it & Htimes & Hit & Hpos & _).
  { rewrite Hcycle. int_lia. }
  { rewrite Hcycle. int_lia. }
  pose proof (times_data pre_inc k pre_inc_data _ _ Htimes) as Hdata'.
  pose proof (ptr_of_position it Hit) as Hslot.
  rewrite Hpos, Hpos0 in Hslot.
  destruct (Hit) as (Hlen' & _ & Hp).
  assert (ptr it + cycle it * Capacity = _read_ptr rb + Z.of_nat k) as Hpos'.
  { rewrite Hpos0 in Hpos. unfold position in Hpos. by rewrite Hlen' in Hpos. }
  exists it. split; [done|]. unfold eq_sentinel. split; intros Hcase.
  - split.
    + unfold deref. rewrite load_lookup by lia.
      rewrite Hdata', Hdata, Hslot. symmetry.
      by apply (lookup_contents Capacity Capacity_pos Capacity_size_t').
    + destruct (Z.eqb_spec (cycle it) (sentinel_cycle (end_ rb))) as [Hc|];
        [simpl|done].
      destruct (Z.eqb_spec (ptr it) (sentinel_ptr (end_ rb))); [|done].
      rewrite Hc in Hpos'. lia.
  - assert (cycle it = sentinel_cycle (end_ rb)) as Hc by nia.
    assert (ptr it = sentinel_ptr (end_ rb)) as Hp' by nia.
    by rewrite Hc, Hp', !Z.eqb_refl.
Qed.

(** X17: random access from [begin()]: for [k] in [[0, size())],
    [begin()[k]] and [*(begin() + k)] are element [k] of the queue. *)
Theorem random_access_reads_queue (rb : RB) (k : Z) :
  wf rb → 0 ≤ k < size rb →
  index (begin rb) k = contents rb !! Z.to_nat k ∧
  add (begin rb) k ≫= deref = contents rb !! Z.to_nat k.
Proof.
  intros Hwf Hk.
  destruct (begin_in_bounds rb Hwf)
    as (Hbegin & Hdata & Hptr & Hcycle & Hpos0).
  destruct (Hwf) as (Hlen & Hw & Hr & _).
  pose proof (size_bounds Capacity Capacity_pos Capacity_size_t' rb Hw Hr)
    as Hsz.
  pose proof (Z.mod_pos_bound (_read_ptr rb + k) Capacity Capacity_pos) as Hm.
  assert (contents rb !! Z.to_nat k
          = load (_buffer rb) ((_read_ptr rb + k) mod Capacity)) as ->.
  { rewrite load_lookup by lia.
    rewrite (lookup_contents Capacity Capacity_pos Capacity_size_t') by
      (done || lia).
    by rewrite Z2Nat.id by lia. }
  split.
  - unfold index. rewrite Hptr, Hdata, Hlen.
    rewrite uadd_small, umod_Some by int_lia. done.
  - assert (0 ≤ (_read_ptr rb + k) / Capacity < 2) as Hq.
    { split; [apply Z.div_pos; lia|]. apply Z.div_lt_upper_bound; lia. }
    rewrite (add_forward Capacity)
      by (rewrite ?Hcycle, ?Hptr; done || int_lia).
    simpl. unfold deref. simpl. done.
Qed.

(** X18: [begin() == end()] exactly when the buffer is empty, in every
    state. *)
Theorem begin_is_end_iff_empty (rb : RB) :
  eq_sentinel (begin rb) (end_ rb) = empty rb.
Proof.
  unfold eq_sentinel, begin, end_, empty, full, Iterator_ctor, Sentinel_ctor.
  simpl. change (to_ssize 0) with 0. rewrite (Z.eqb_sym (_read_ptr rb)).
  destruct (_is_full rb), (Z.ltb_spec (_write_ptr rb) (_read_ptr rb)),
    (Z.eqb_spec (_write_ptr rb) (_read_ptr rb)); simpl; (done || lia).
Qed.

(** [Iterator - Sentinel], when every intermediate value is
    representable. *)
Lemma sub_sentinel_position (it : Iterator T) (s : Sentinel) :
  in_bounds Capacity it → 0 ≤ sentinel_ptr s < Capacity →
  0 ≤ sentinel_cycle s ≤ 1 → 0 ≤ cycle it ≤ 1 →
  sub_sentinel it s
  = Some (position it - (sentinel_ptr s + sentinel_cycle s * Capacity)) ∧
  sentinel_sub s it
  = Some (sentinel_ptr s + sentinel_cycle s * Capacity - position it).
Proof.
  intros Hit Hsp Hsc Hc.
  destruct (to_ssize_index Capacity it Hit) as (Hp & Hsize & _).
  destruct (Hit) as (Hlen & _ & Hptr).
  assert (0 ≤ cycle it * Capacity ≤ Capacity) by nia.
  assert (0 ≤ sentinel_cycle s * Capacity ≤ Capacity) by nia.
  split.
  - unfold sub_sentinel, smul, sadd, ssub, position.
    rewrite Hp, Hsize, Hlen, (to_ssize_small (sentinel_ptr s)) by int_lia.
    rewrite (checked_Some (cycle it * Capacity)) by int_lia. simpl.
    rewrite (checked_Some (ptr it + _)) by int_lia. simpl.
    rewrite (checked_Some (sentinel_cycle s * Capacity)) by int_lia. simpl.
    rewrite (checked_Some (sentinel_ptr s + _)) by int_lia. simpl.
    rewrite checked_Some by int_lia. done.
  - apply (sentinel_sub_position Capacity); unfold position;
      rewrite ?Hlen; (done || int_lia).
Qed.

(** X19: the distance from [begin()] to [end()] is [size()], and the
    distance the other way round is its negation. *)
Theorem end_minus_begin_is_size (rb : RB) :
  wf rb →
  sentinel_sub (end_ rb) (begin rb) = Some (size rb) ∧
  sub_sentinel (begin rb) (end_ rb) = Some (- size rb).
Proof.
  intros Hwf.
  destruct (begin_in_bounds rb Hwf) as (Hbegin & _ & _ & Hcycle & Hpos0).
  destruct (end_position rb Hwf) as (Hsp & Hsc & Hend).
  destruct (sub_sentinel_position (begin rb) (end_ rb) Hbegin Hsp Hsc)
    as [Hsub Hsub']; [rewrite Hcycle; lia|].
  rewrite Hsub, Hsub', Hpos0, Hend. split; f_equal; lia.
Qed.

Lemma sub_iterator_position (a b : Iterator T) :
  in_bounds Capacity a → in_bounds Capacity b →
  0 ≤ cycle a ≤ 1 → 0 ≤ cycle b ≤ 1 →
  sub_iterator a b = Some (position a - position b).
Proof.
  intros Ha Hb Hca Hcb.
  destruct (to_ssize_index Capacity a Ha) as (Hpa & Hsa & _).
  destruct (to_ssize_index Capacity b Hb) as (Hpb & Hsb & _).
  destruct (Ha) as (Hlena & _ & Hptra), (Hb) as (Hlenb & _ & Hptrb).
  assert (0 ≤ cycle a * Capacity ≤ Capacity) by nia.
  assert (0 ≤ cycle b * Capacity ≤ Capacity) by nia.
  unfold sub_iterator, smul, sadd, ssub, position.
  rewrite Hpa, Hsa, Hpb, Hsb, Hlena, Hlenb.
  rewrite (checked_Some (cycle a * Capacity)) by int_lia. simpl.
  rewrite (checked_Some (ptr a + _)) by int_lia. simpl.
  rewrite (checked_Some (cycle b * Capacity)) by int_lia. simpl.
  rewrite (checked_Some (ptr b + _)) by int_lia. simpl.
  by rewrite checked_Some by int_lia.
Qed.

(** The iterator [begin() + j], for an offset of at most one lap. *)
Lemma add_from_begin (rb : RB) (j : Z) :
  wf rb → 0 ≤ j ≤ Capacity →
  ∃ a, add (begin rb) j = Some a ∧ in_bounds Capacity a ∧
       0 ≤ cycle a ≤ 1 ∧ position a = _read_ptr rb + j.
Proof.
  intros Hwf Hj.
  destruct (begin_in_bounds rb Hwf) as (Hbegin & Hdata & Hptr & Hcycle & _).
  destruct (Hwf) as (Hlen & _ & Hr & _).
  assert (0 ≤ (_read_ptr rb + j) / Capacity < 2) as Hq.
  { split; [apply Z.div_pos; lia|]. apply Z.div_lt_upper_bound; lia. }
  pose proof (Z.mod_pos_bound (_read_ptr rb + j) Capacity Capacity_pos) as Hm.
  pose proof (Z.div_mod (_read_ptr rb + j) Capacity ltac:(lia)) as Hdm.
  rewrite (add_forward Capacity)
    by (rewrite ?Hcycle, ?Hptr; done || int_lia).
  rewrite Hcycle, Hptr, Hdata.
  eexists. split; [done|]. unfold in_bounds, position. simpl.
  rewrite Hlen. split_and!; int_lia.
Qed.

(** X20: distances and order of iterators taken from [begin()]: for
    offsets [j] and [k] of at most one lap, [(begin() + k) - (begin() + j)]
    is [k - j], the iterators compare as [j] and [k] do, and they are equal
    exactly when [j = k]. *)
Theorem offsets_from_begin (rb : RB) (j k : Z) :
  wf rb → 0 ≤ j ≤ Capacity → 0 ≤ k ≤ Capacity →
  ∃ a b,
    add (begin rb) j = Some a ∧ add (begin rb) k = Some b ∧
    sub_iterator b a = Some (k - j) ∧
    compare a b = (j ?= k) ∧
    eq_iterator a b = (j =? k).
Proof.
  intros Hwf Hj Hk.
  destruct (add_from_begin rb j Hwf Hj) as (a & Ha & Hina & Hca & Hposa).
  destruct (add_from_begin rb k Hwf Hk) as (b & Hb & Hinb & Hcb & Hposb).
  exists a, b. split; [done|]. split; [done|]. split; [|split].
  - rewrite sub_iterator_position by done. f_equal. lia.
  - rewrite (compare_position Capacity) by done.
    rewrite Hposa, Hposb. apply Z.add_compare_mono_l.
  - rewrite (eq_iterator_position Capacity) by done.
    rewrite Hposa, Hposb.
    destruct (Z.eqb_spec j k),
      (Z.eqb_spec (_read_ptr rb + j) (_read_ptr rb + k)); (done || lia).
Qed.

End Traversal.

(** * Concrete runs *)

(** ** Offsets that step back over index 0 *)

(** C1, at the offset -1 from index 0 of 8 slots: the requested position is
    -1, that is index 7 of cycle -1, which is what [operator--] returns.
    The five offset operations all return index 7 of cycle 0, position 7;
    and at the offset -8 [operator+=] returns index 8, outside [[0, 8)]. *)
Theorem backward_offset_keeps_cycle :
  position at_start + -1 = -1 ∧
  pre_dec at_start = Some (mkIterator eight 7 (-1)) ∧
  position (mkIterator eight 7 (-1)) = -1 ∧
  add_assign (-1) at_start = Some (mkIterator eight 7 0) ∧
  sub_assign 1 at_start = Some (mkIterator eight 7 0) ∧
  add at_start (-1) = Some (mkIterator eight 7 0) ∧
  add_l (-1) at_start = Some (mkIterator eight 7 0) ∧
  sub at_start 1 = Some (mkIterator eight 7 0) ∧
  position (mkIterator eight 7 0) = 7 ∧
  add_assign (-8) at_start = Some (mkIterator eight 8 (-1)).
Proof. repeat split; reflexivity. Qed.

(** ** Batches *)

Lemma two_of_four_reached :
  run 4 [Push 1; Push 2] (new 0 4)
  = Some ([PushReply (Value ()); PushReply (Value ())], two_of_four).
Proof. reflexivity. Qed.

(** C2, at a request for one of two stored elements with the read cursor
    at 0 of 4: the guard passes, and the copy transfers
    [Capacity - _read_ptr = 4] elements, not one.  With room behind the
    span the caller's elements 1..3 are overwritten; without it the copy
    runs past the caller's object. *)
Theorem pop_buffer_short_request_overruns :
  size 4 two_of_four = 2 ∧
  pop_buffer 4 [9; 9; 9; 9] 1 two_of_four
  = Some (Value (), mkRingBuffer [1; 2; 0; 0] 2 1 false, [1; 2; 0; 0]) ∧
  pop_buffer 4 [9] 1 two_of_four = None.
Proof. repeat split; reflexivity. Qed.

(** C3, at the empty batch pushed into a fresh buffer of capacity 4:
    [size()] goes from 0 to 4 although nothing was pushed. *)
Theorem push_buffer_nothing_grows_size :
  size 4 (new 0 4) = 0 ∧ span_size (@nil Z) ≤ free 4 (new 0 4) ∧
  push_buffer 4 [] (new 0 4)
  = Some (Value (), mkRingBuffer [0; 0; 0; 0] 0 0 true) ∧
  size 4 (mkRingBuffer [0; 0; 0; 0] 0 0 true) = 4.
Proof. repeat split; (reflexivity || done). Qed.

(** ** [push_unchecked] on a full buffer *)

Lemma full_of_two_reachable allowed :
  allowed (CallPush 1) (new 0 2) →
  allowed (CallPush 2) (mkRingBuffer [1; 0] 1 0 false) →
  reachable 0 2 allowed full_of_two.
Proof.
  intros H1 H2.
  eapply reachable_call; [|exact H2|reflexivity].
  eapply reachable_call; [|exact H1|reflexivity].
  apply reachable_new.
Qed.

(** C6 as stated fails: with capacity 2, [push(1); push(2);
    push_unchecked(3)] reaches a state whose flag is set while the cursors
    differ. *)
Lemma unchecked_push_breaks_flag :
  ¬ (∀ rb : RingBuffer Z, reachable 0 2 any_call rb → cursors_ok 2 rb).
Proof.
  intros Hinv.
  assert (reachable 0 2 any_call overrun_of_two) as Hreach.
  { eapply reachable_call with (c := CallPushUnchecked 3);
      [apply full_of_two_reachable| |reflexivity]; done. }
  destruct (Hinv _ Hreach) as (_ & _ & Hflag).
  specialize (Hflag eq_refl). discriminate Hflag.
Qed.

(** ** Instances of the theorems *)

Lemma capacity_2_size_t : 2 < SIZE_MOD.
Proof. reflexivity. Defined.

Lemma capacity_4_size_t : 4 < SIZE_MOD.
Proof. reflexivity. Defined.

(** Capacity 2: two pushes fill the buffer, a pop and a push wrap the write
    cursor, and two pops drain it. *)
Lemma push_pop_fifo_witness :
  within_bounds 2 [Push 1; Push 2; Pop; Push 3; Pop; Pop] (new 0 2) = true ∧
  ∃ rs rb',
    run 2 [Push 1; Push 2; Pop; Push 3; Pop; Pop] (new 0 2) = Some (rs, rb') ∧
    length rs = 6%nat ∧
    forallb succeeded rs = true ∧
    size 2 rb' = 3 - 3 ∧
    popped_values rs = [1; 2; 3] ∧
    contents 2 rb' = [].
Proof.
  split; [reflexivity|].
  apply (push_pop_fifo 0 2 eq_refl capacity_2_size_t
           [Push 1; Push 2; Pop; Push 3; Pop; Pop] eq_refl).
Defined.

Lemma checked_errors_exact_witness :
  push 2 7 full_of_two = Some (Unexpected Full, full_of_two) ∧
  push_buffer 4 [7; 8; 9] two_of_four = Some (Unexpected Full, two_of_four) ∧
  pop 4 (new 0 4) = Some (Unexpected Empty, new 0 4) ∧
  pop_buffer 4 [9; 9; 9] 3 two_of_four
  = Some (Unexpected Empty, two_of_four, [9; 9; 9]).
Proof.
  split; [|split; [|split]].
  - exact (proj1 (proj1 (checked_errors_exact 2 full_of_two) 7) eq_refl).
  - exact (proj1 (proj1 (proj2 (checked_errors_exact 4 two_of_four))
                    [7; 8; 9]) eq_refl).
  - exact (proj1 (proj1 (proj2 (proj2 (checked_errors_exact 4 (new 0 4)))))
             eq_refl).
  - exact (proj1 (proj2 (proj2 (proj2 (checked_errors_exact 4 two_of_four)))
                    [9; 9; 9] 3) eq_refl).
Defined.

Lemma reachable_cursors_ok_witness :
  reachable 0 2 room_for_unchecked full_of_two ∧ cursors_ok 2 full_of_two.
Proof.
  assert (reachable 0 2 room_for_unchecked full_of_two) as Hreach
    by (apply full_of_two_reachable; exact I).
  split; [exact Hreach|].
  exact (proj2 (reachable_cursors_ok 0 2 eq_refl capacity_2_size_t full_of_two)
           Hreach).
Defined.

Lemma size_plus_free_witness :
  (0 ≤ 2 < 4 ∧ 0 ≤ 0 < 4) ∧
  uadd (size 4 two_of_four) (free 4 two_of_four) = 4 ∧
  size 4 two_of_four + free 4 two_of_four = 4.
Proof.
  assert (0 ≤ 2 < 4 ∧ 0 ≤ 0 < 4) as [Hw Hr] by lia.
  split; [done|].
  exact (size_plus_free 4 capacity_4_size_t two_of_four Hw Hr).
Defined.

Lemma empty_full_iff_size_witness :
  reachable 0 2 checked_call full_of_two ∧
  (empty full_of_two = true ↔ size 2 full_of_two = 0) ∧
  (full full_of_two = true ↔ size 2 full_of_two = 2).
Proof.
  assert (reachable 0 2 checked_call full_of_two) as Hreach
    by (apply full_of_two_reachable; exact I).
  split; [exact Hreach|].
  exact (empty_full_iff_size 0 2 eq_refl capacity_2_size_t full_of_two Hreach).
Defined.

Lemma wf_empty_at_three : wf 4 empty_at_three.
Proof. repeat split; (reflexivity || discriminate). Defined.

Lemma push_buffer_nothing_fills_witness :
  size 4 empty_at_three = 0 ∧
  ∃ rb',
    push_buffer 4 [] empty_at_three = Some (Value (), rb') ∧
    full rb' = true ∧ size 4 rb' = 4 ∧
    _buffer rb' = [5; 6; 7; 8] ∧ _write_ptr rb' = 3 ∧ _read_ptr rb' = 3.
Proof.
  split; [reflexivity|].
  exact (push_buffer_nothing_fills 4 eq_refl capacity_4_size_t empty_at_three
           wf_empty_at_three eq_refl).
Defined.

Lemma wf_full_from_40 : wf 64 full_from_40.
Proof. repeat split; (reflexivity || discriminate). Defined.

Lemma full_buffer_positions_witness :
  contents 64 full_from_40 = seqZ 0 64 ∧
  index (begin full_from_40) 30 = Some 30 ∧
  add (begin full_from_40) 30 ≫= deref = Some 30 ∧
  (∃ it, add (begin full_from_40) 64 = Some it ∧
         eq_sentinel it (end_ full_from_40) = true) ∧
  sentinel_sub (end_ full_from_40) (begin full_from_40) = Some 64 ∧
  (∃ it, times 64 pre_inc (begin full_from_40) = Some it ∧
         eq_sentinel it (end_ full_from_40) = true).
Proof.
  split; [reflexivity|].
  apply (full_buffer_positions full_from_40 30 wf_full_from_40 eq_refl eq_refl).
  split; [discriminate|reflexivity].
Defined.

(** ** Instances of the further properties *)

Lemma wf_two_of_four : wf 4 two_of_four.
Proof. repeat split; (reflexivity || discriminate). Defined.

Lemma wf_full_of_two : wf 2 full_of_two.
Proof. repeat split; (reflexivity || discriminate). Defined.

Lemma wf_wrapped_of_four : wf 4 wrapped_of_four.
Proof. repeat split; (reflexivity || discriminate). Defined.

Lemma in_bounds_at_three : in_bounds 8 at_three.
Proof. repeat split; (reflexivity || discriminate). Defined.

Lemma in_bounds_at_start : in_bounds 8 at_start.
Proof. repeat split; (reflexivity || discriminate). Defined.

Lemma two_laps_of_4 : 2 * 4 ≤ SSIZE_MAX.
Proof. discriminate. Defined.

Lemma two_laps_of_4_size_t : 2 * 4 ≤ SIZE_MOD.
Proof. discriminate. Defined.

Lemma push_enqueues_witness :
  wf 4 two_of_four ∧ full two_of_four = false ∧
  ∃ rb', push 4 3 two_of_four = Some (Value (), rb') ∧ wf 4 rb' ∧
         contents 4 rb' = [1; 2; 3] ∧ size 4 rb' = 3 ∧ _read_ptr rb' = 0 ∧
         (full rb' = true ↔ 2 + 1 = 4).
Proof.
  split; [exact wf_two_of_four|]. split; [reflexivity|].
  exact (proj2 (push_enqueues 4 eq_refl capacity_4_size_t 3 two_of_four
                  wf_two_of_four) eq_refl).
Defined.

Lemma pop_dequeues_witness :
  wf 4 wrapped_of_four ∧ empty wrapped_of_four = false ∧
  ∃ x rb', pop 4 wrapped_of_four = Some (Value x, rb') ∧ wf 4 rb' ∧
           [10; 20] = x :: contents 4 rb' ∧ size 4 rb' = 1 ∧
           _buffer rb' = [20; 0; 0; 10] ∧ _write_ptr rb' = 1.
Proof.
  split; [exact wf_wrapped_of_four|]. split; [reflexivity|].
  exact (proj2 (pop_dequeues 4 eq_refl capacity_4_size_t wrapped_of_four
                  wf_wrapped_of_four) eq_refl).
Defined.

Lemma push_buffer_enqueues_witness :
  wf 4 empty_at_three ∧ span_size [1; 2; 3] ≤ free 4 empty_at_three ∧
  ∃ rb', push_buffer 4 [1; 2; 3] empty_at_three = Some (Value (), rb') ∧
         wf 4 rb' ∧ contents 4 rb' = [1; 2; 3] ∧ size 4 rb' = 3 ∧
         _read_ptr rb' = 3 ∧ (full rb' = true ↔ 0 + 3 = 4).
Proof.
  split; [exact wf_empty_at_three|]. split; [discriminate|].
  apply (push_buffer_enqueues 4 eq_refl capacity_4_size_t [1; 2; 3]
           empty_at_three wf_empty_at_three two_laps_of_4_size_t).
  - discriminate.
  - left. discriminate.
Defined.

Lemma pop_buffer_dequeues_witness :
  wf 4 wrapped_of_four ∧ 4 - _read_ptr wrapped_of_four ≤ 2 ∧
  ∃ rb', pop_buffer 4 [9; 9; 9] 2 wrapped_of_four
         = Some (Value (), rb', [10; 20; 9]) ∧
         wf 4 rb' ∧ contents 4 rb' = [] ∧ size 4 rb' = 0 ∧
         _buffer rb' = [20; 0; 0; 10] ∧ _write_ptr rb' = 1.
Proof.
  split; [exact wf_wrapped_of_four|]. split; [discriminate|].
  apply (pop_buffer_dequeues 4 eq_refl capacity_4_size_t [9; 9; 9] 2
           wrapped_of_four wf_wrapped_of_four two_laps_of_4_size_t).
  - split; discriminate.
  - discriminate.
  - discriminate.
Defined.

Lemma pop_buffer_short_copies_to_the_end_witness :
  wf 4 two_of_four ∧ 1 < 4 - _read_ptr two_of_four ∧
  pop_buffer 4 [9; 9; 9; 9; 9] 1 two_of_four
  = Some (Value (), mkRingBuffer [1; 2; 0; 0] 2 1 false, [1; 2; 0; 0; 9]) ∧
  pop_buffer 4 [9; 9] 1 two_of_four = None.
Proof.
  split; [exact wf_two_of_four|]. split; [reflexivity|]. split.
  - apply (pop_buffer_short_copies_to_the_end 4 eq_refl capacity_4_size_t
             [9; 9; 9; 9; 9] 1 two_of_four wf_two_of_four);
      (reflexivity || discriminate || (split; discriminate)).
  - apply (pop_buffer_short_copies_to_the_end 4 eq_refl capacity_4_size_t
             [9; 9] 1 two_of_four wf_two_of_four);
      (reflexivity || discriminate || (split; discriminate)).
Defined.

Lemma batch_round_trip_witness :
  wf 4 empty_at_three ∧ empty empty_at_three = true ∧
  ∃ rb1 rb2,
    push_buffer 4 [1; 2; 3] empty_at_three = Some (Value (), rb1) ∧
    pop_buffer 4 [9; 9; 9] 3 rb1 = Some (Value (), rb2, [1; 2; 3]) ∧
    wf 4 rb2 ∧ empty rb2 = true.
Proof.
  split; [exact wf_empty_at_three|]. split; [reflexivity|].
  apply (batch_round_trip 4 eq_refl capacity_4_size_t [1; 2; 3] [9; 9; 9]
           empty_at_three wf_empty_at_three two_laps_of_4_size_t eq_refl);
    discriminate.
Defined.

Lemma clear_empties_witness :
  span_size (_buffer overrun_of_two) = 2 ∧
  wf 2 (clear overrun_of_two) ∧ _buffer (clear overrun_of_two) = [3; 2] ∧
  empty (clear overrun_of_two) = true ∧ full (clear overrun_of_two) = false ∧
  size 2 (clear overrun_of_two) = 0 ∧ free 2 (clear overrun_of_two) = 2 ∧
  contents 2 (clear overrun_of_two) = [] ∧
  pop 2 (clear overrun_of_two)
  = Some (Unexpected Empty, clear overrun_of_two).
Proof.
  split; [reflexivity|].
  exact (clear_empties 2 eq_refl capacity_2_size_t overrun_of_two eq_refl).
Defined.

Lemma pop_unchecked_on_empty_witness :
  wf 4 empty_at_three ∧ empty empty_at_three = true ∧
  ∃ x rb',
    pop_unchecked 4 empty_at_three = Some (x, rb') ∧
    load [5; 6; 7; 8] 3 = Some x ∧ wf 4 rb' ∧ size 4 rb' = 4 - 1.
Proof.
  split; [exact wf_empty_at_three|]. split; [reflexivity|].
  exact (pop_unchecked_on_empty 4 eq_refl capacity_4_size_t empty_at_three
           wf_empty_at_three eq_refl).
Defined.

Lemma push_unchecked_on_full_witness :
  wf 2 full_of_two ∧ full full_of_two = true ∧
  ∃ rb1 rb2,
    push_unchecked 2 3 full_of_two = Some rb1 ∧ size 2 rb1 = 2 ∧
    pop 2 rb1 = Some (Value 3, rb2) ∧ empty rb2 = true ∧ size 2 rb2 = 0.
Proof.
  split; [exact wf_full_of_two|]. split; [reflexivity|].
  exact (push_unchecked_on_full 2 eq_refl capacity_2_size_t 3 full_of_two
           wf_full_of_two eq_refl).
Defined.

Lemma pop_buffer_nothing_empties_witness :
  wf 2 full_of_two ∧ full full_of_two = true ∧
  ∃ rb' out',
    pop_buffer 2 [9; 9] 0 full_of_two = Some (Value (), rb', out') ∧
    _write_ptr rb' = 0 ∧ _read_ptr rb' = 0 ∧
    empty rb' = true ∧ size 2 rb' = 0 ∧ contents 2 rb' = [].
Proof.
  split; [exact wf_full_of_two|]. split; [reflexivity|].
  apply (pop_buffer_nothing_empties 2 eq_refl capacity_2_size_t [9; 9]
           full_of_two wf_full_of_two eq_refl).
  discriminate.
Defined.

Lemma increment_decrement_inverse_witness :
  in_bounds 8 at_three ∧
  pre_inc at_three ≫= pre_dec = Some at_three ∧
  pre_dec at_three ≫= pre_inc = Some at_three.
Proof.
  split; [exact in_bounds_at_three|].
  apply (increment_decrement_inverse 8 at_three in_bounds_at_three).
  split; reflexivity.
Defined.

Lemma add_assign_is_repeated_increment_witness :
  in_bounds 8 at_three ∧
  add_assign 13 at_three = times 13 pre_inc at_three.
Proof.
  split; [exact in_bounds_at_three|].
  apply (add_assign_is_repeated_increment 8 13 at_three in_bounds_at_three);
    discriminate.
Defined.

Lemma order_and_equality_by_position_witness :
  in_bounds 8 at_start ∧ in_bounds 8 at_three ∧
  compare at_start at_three = (0 ?= 3) ∧
  eq_iterator at_start at_three = (0 =? 3).
Proof.
  split; [exact in_bounds_at_start|]. split; [exact in_bounds_at_three|].
  exact (order_and_equality_by_position 8 at_start at_three
           in_bounds_at_start in_bounds_at_three).
Defined.


Lemma sub_assign_lands_a_lap_ahead_witness :
  in_bounds 8 at_three ∧ ptr at_three < 5 ∧
  ∃ a b,
    sub_assign 5 at_three = Some a ∧ times 5 pre_dec at_three = Some b ∧
    position b = 3 - 5 ∧ 0 ≤ ptr b < 8 ∧
    position a = position b + 8 ∧ 0 < ptr a ≤ 8.
Proof.
  split; [exact in_bounds_at_three|]. split; [reflexivity|].
  apply (sub_assign_lands_a_lap_ahead 8 5 at_three in_bounds_at_three);
    (reflexivity || discriminate).
Defined.

Lemma offset_above_zero_is_exact_witness :
  in_bounds 8 at_three ∧
  ∃ it',
    add_assign (-2) at_three = Some it' ∧ data it' = eight ∧
    in_bounds 8 it' ∧ position it' = 3 + -2.
Proof.
  split; [exact in_bounds_at_three|].
  apply (offset_above_zero_is_exact 8 at_three (-2) in_bounds_at_three);
    (discriminate || (split; discriminate)).
Defined.

Lemma traversal_visits_queue_witness :
  wf 4 wrapped_of_four ∧ size 4 wrapped_of_four = 2 ∧
  (∃ it,
     times 1 pre_inc (begin wrapped_of_four) = Some it ∧
     (1 < 2 → deref it = Some 20 ∧
              eq_sentinel it (end_ wrapped_of_four) = false) ∧
     (1 = 2 → eq_sentinel it (end_ wrapped_of_four) = true)) ∧
  (∃ it,
     times 2 pre_inc (begin wrapped_of_four) = Some it ∧
     (2 < 2 → deref it = None ∧
              eq_sentinel it (end_ wrapped_of_four) = false) ∧
     (2 = 2 → eq_sentinel it (end_ wrapped_of_four) = true)).
Proof.
  split; [exact wf_wrapped_of_four|]. split; [reflexivity|]. split.
  - apply (traversal_visits_queue 4 eq_refl two_laps_of_4 wrapped_of_four 1
             wf_wrapped_of_four). discriminate.
  - apply (traversal_visits_queue 4 eq_refl two_laps_of_4 wrapped_of_four 2
             wf_wrapped_of_four). discriminate.
Defined.

Lemma random_access_reads_queue_witness :
  wf 4 wrapped_of_four ∧
  index (begin wrapped_of_four) 1 = Some 20 ∧
  add (begin wrapped_of_four) 1 ≫= deref = Some 20.
Proof.
  split; [exact wf_wrapped_of_four|].
  apply (random_access_reads_queue 4 eq_refl two_laps_of_4 wrapped_of_four 1
           wf_wrapped_of_four).
  split; (reflexivity || discriminate).
Defined.

Lemma end_minus_begin_is_size_witness :
  wf 4 wrapped_of_four ∧
  sentinel_sub (end_ wrapped_of_four) (begin wrapped_of_four) = Some 2 ∧
  sub_sentinel (begin wrapped_of_four) (end_ wrapped_of_four) = Some (-2).
Proof.
  split; [exact wf_wrapped_of_four|].
  exact (end_minus_begin_is_size 4 eq_refl two_laps_of_4 wrapped_of_four
           wf_wrapped_of_four).
Defined.

Lemma offsets_from_begin_witness :
  wf 4 wrapped_of_four ∧
  ∃ a b,
    add (begin wrapped_of_four) 1 = Some a ∧
    add (begin wrapped_of_four) 3 = Some b ∧
    sub_iterator b a = Some 2 ∧ compare a b = Lt ∧ eq_iterator a b = false.
Proof.
  split; [exact wf_wrapped_of_four|].
  apply (offsets_from_begin 4 eq_refl two_laps_of_4 wrapped_of_four 1 3
           wf_wrapped_of_four); split; discriminate.
Defined.
